(** * Dictado Pro: the dictation editor of [src/App.tsx]

    A shallow embedding of the application component: the JavaScript string
    primitives it relies on, the cursor-aware text operations
    ([insertTextAtCursor], [deleteAtCursor], [toggleCase]), the recognition
    callbacks ([onresult], [onerror], [onend]), [toggleListening] and the
    read-along playback handlers. *)

From Stdlib Require Import ZArith List Bool Lia String Ascii QArith Qround.
Import ListNotations.
Local Open Scope Z_scope.

(** ** JavaScript strings

    A JavaScript string is a sequence of UTF-16 code units; [length],
    [substring], [charAt], [lastIndexOf] and the textarea's selection offsets
    all count code units. *)

Module JS.

Definition jsstring := list N.

(** Literals: the code units of an ASCII Rocq string. *)
Definition js (s : string) : jsstring :=
  map N_of_ascii (list_ascii_of_string s).

Definition length (s : jsstring) : Z := Z.of_nat (List.length s).

(** [String.prototype.substring]: both arguments are clamped to
    [0 .. length] and swapped when out of order. *)
Definition clampIndex (s : jsstring) (i : Z) : Z := Z.min (Z.max i 0) (length s).

Definition substring (s : jsstring) (a b : Z) : jsstring :=
  let a' := clampIndex s a in
  let b' := clampIndex s b in
  let from := Z.min a' b' in
  let to := Z.max a' b' in
  firstn (Z.to_nat (to - from)) (skipn (Z.to_nat from) s).

(** [s.substring(a)], the one-argument form. *)
Definition substringFrom (s : jsstring) (a : Z) : jsstring :=
  skipn (Z.to_nat (clampIndex s a)) s.

(** [s.charAt(0)] and [s.slice(1)]. *)
Definition charAt0 (s : jsstring) : jsstring :=
  match s with [] => [] | c :: _ => [c] end.

Definition slice1 (s : jsstring) : jsstring :=
  match s with [] => [] | _ :: r => r end.

(** The class [\s] of regular expressions, which is also the set removed by
    [trim] and [trimEnd]: WhiteSpace and LineTerminator of ECMAScript. *)
Definition isWhiteSpace (c : N) : bool :=
  (((9 <=? c) && (c <=? 13)) || (c =? 32) || (c =? 160) || (c =? 5760)
   || ((8192 <=? c) && (c <=? 8202)) || (c =? 8232) || (c =? 8233)
   || (c =? 8239) || (c =? 8287) || (c =? 12288) || (c =? 65279))%N.

Fixpoint trimStart (s : jsstring) : jsstring :=
  match s with
  | [] => []
  | c :: r => if isWhiteSpace c then trimStart r else s
  end.

Fixpoint trimEnd (s : jsstring) : jsstring :=
  match s with
  | [] => []
  | c :: r =>
      match trimEnd r with
      | [] => if isWhiteSpace c then [] else [c]
      | r' => c :: r'
      end
  end.

Definition trim (s : jsstring) : jsstring := trimEnd (trimStart s).

(** [s.lastIndexOf(c)] for a one-unit needle, [-1] when absent.
    [lastIndexOfFrom c s i] searches [s] whose first unit has index [i]. *)
Fixpoint lastIndexOfFrom (c : N) (s : jsstring) (i : Z) : Z :=
  match s with
  | [] => -1
  | x :: r =>
      let j := lastIndexOfFrom c r (i + 1) in
      if 0 <=? j then j else if (x =? c)%N then i else -1
  end.

Definition lastIndexOf (c : N) (s : jsstring) : Z := lastIndexOfFrom c s 0.

Definition SPACE : N := 32.

(** [/\s$/.test(s)]: without the [m] flag, [$] is the end of the input. *)
Definition endsWithWhiteSpace (s : jsstring) : bool :=
  match rev s with [] => false | c :: _ => isWhiteSpace c end.

(** [/^[.,;:!?]/.test(s)]. *)
Definition isNoSpacePunct (c : N) : bool :=
  ((c =? 46) || (c =? 44) || (c =? 59) || (c =? 58) || (c =? 33) || (c =? 63))%N.

Definition startsWithNoSpacePunct (s : jsstring) : bool :=
  match s with [] => false | c :: _ => isNoSpacePunct c end.

(** Truthiness of a string: the empty string is the only falsy one. *)
Definition truthy (s : jsstring) : bool :=
  match s with [] => false | _ => true end.

Definition eqb (a b : jsstring) : bool :=
  if list_eq_dec N.eq_dec a b then true else false.

End JS.

Import JS.

(** The parts of the host that are Unicode tables: the case conversions of
    [String.prototype] and the general category P tested by [\p{P}]. *)
Class Unicode := {
  toUpperCase : jsstring -> jsstring;
  toLowerCase : jsstring -> jsstring;
  isPunctuation : N -> bool
}.

(** Those tables on ASCII text: the conversions map [a-z] and [A-Z] onto each
    other unit by unit, and [punct] lists the code units of the ASCII members
    of category P (the symbols of category S, such as the dollar and plus
    signs, are not among them).  Used to run the editor on ASCII documents. *)
Module Ascii7.

Definition upperUnit (c : N) : N :=
  if ((97 <=? c) && (c <=? 122))%N then (c - 32)%N else c.

Definition lowerUnit (c : N) : N :=
  if ((65 <=? c) && (c <=? 90))%N then (c + 32)%N else c.

Definition punct (c : N) : bool :=
  existsb (N.eqb c)
    [33; 34; 35; 37; 38; 39; 40; 41; 42; 44; 45; 46; 47; 58; 59; 63; 64;
     91; 92; 93; 95; 123; 125]%N.

#[export] Instance unicode : Unicode := {
  toUpperCase := map upperUnit;
  toLowerCase := map lowerUnit;
  isPunctuation := punct
}.

End Ascii7.

(** ** The document: the textarea's value and selection *)

Record Document := mkDocument {
  text : jsstring;
  selectionStart : Z;
  selectionEnd : Z
}.

(** The selection offsets of a textarea are of the type unsigned long: an
    integer assigned to one is taken modulo [2^32], and then clamped to the
    length of the value. *)
Definition toUnsignedLong (x : Z) : Z := x mod 2 ^ 32.

Definition validDocument (d : Document) : Prop :=
  0 <= selectionStart d /\ selectionStart d <= selectionEnd d
  /\ selectionEnd d <= length (text d).

Inductive DeleteMode := CHAR | WORD.

(** [insertTextAtCursor]: [setText(newText)], then the deferred callback
    collapses the selection at [start + textToInsert.length].  The document
    returned is the one after that callback. *)
Definition insertTextAtCursor (textToInsert : jsstring) (d : Document) : Document :=
  let start := selectionStart d in
  let end_ := selectionEnd d in
  let currentText := text d in
  let newText :=
    substring currentText 0 start ++ textToInsert ++ substringFrom currentText end_ in
  let newCursorPos := start + length textToInsert in
  mkDocument newText newCursorPos newCursorPos.

(** The word branch of [deleteAtCursor]: the boundary and the delete count. *)
Definition wordTargetIndex (currentText : jsstring) (start : Z) : Z :=
  let textBefore := substring currentText 0 start in
  let trimmedBefore := trimEnd textBefore in
  let lastSpaceIndex := lastIndexOf SPACE trimmedBefore in
  if lastSpaceIndex =? -1 then 0 else lastSpaceIndex + 1.

Definition wordDeleteCount (start targetIndex : Z) : Z :=
  let deleteCount := start - targetIndex in
  if (deleteCount =? 0) && (0 <? start) then 1 else deleteCount.

Definition deleteAtCursor (mode : DeleteMode) (d : Document) : Document :=
  let start := selectionStart d in
  let end_ := selectionEnd d in
  let currentText := text d in
  if negb (start =? end_) then
    mkDocument (substring currentText 0 start ++ substringFrom currentText end_)
               start start
  else if start =? 0 then d
  else
    let deleteCount :=
      match mode with
      | CHAR => 1
      | WORD => wordDeleteCount start (wordTargetIndex currentText start)
      end in
    mkDocument
      (substring currentText 0 (start - deleteCount) ++ substringFrom currentText end_)
      (start - deleteCount) (start - deleteCount).

(** ** [toggleCase] *)

Section CaseToggle.
Context `{Unicode}.

(** [/[\s\p{P}]/u.test(textStr[i])] on the one-unit string [textStr[i]]. *)
Definition isBoundary (c : N) : bool := isWhiteSpace c || isPunctuation c.

(** The two [while] loops that grow a collapsed selection to the word around
    the caret.  Outside the string [textStr[i]] is [undefined], on which the
    test fails, so the scan goes on: the left scan runs down through such
    indices, and the right scan, started below 0, runs up to 0 first. *)
Fixpoint scanLeft (textStr : jsstring) (targetStart : nat) : nat :=
  match targetStart with
  | O => O
  | S m =>
      match nth_error textStr m with
      | Some c => if isBoundary c then targetStart else scanLeft textStr m
      | None => scanLeft textStr m
      end
  end.

Fixpoint scanRightFrom (rest : jsstring) (targetEnd : Z) : Z :=
  match rest with
  | [] => targetEnd
  | c :: r => if isBoundary c then targetEnd else scanRightFrom r (targetEnd + 1)
  end.

Definition targetRange (d : Document) : Z * Z :=
  let start := selectionStart d in
  let end_ := selectionEnd d in
  if start =? end_ then
    ((if 0 <? start then Z.of_nat (scanLeft (text d) (Z.to_nat start)) else start),
     scanRightFrom (skipn (Z.to_nat end_) (text d)) (Z.max end_ 0))
  else (start, end_).

Definition isUpper (selectedText : jsstring) : bool :=
  eqb selectedText (toUpperCase selectedText).

Definition isLower (selectedText : jsstring) : bool :=
  eqb selectedText (toLowerCase selectedText).

Definition isTitle (selectedText : jsstring) : bool :=
  let firstChar := charAt0 selectedText in
  let rest := slice1 selectedText in
  eqb firstChar (toUpperCase firstChar) && eqb rest (toLowerCase rest)
  && negb (isUpper selectedText).

Definition titleCased (selectedText : jsstring) : jsstring :=
  toUpperCase (charAt0 selectedText) ++ toLowerCase (slice1 selectedText).

Definition newTextChunk (selectedText : jsstring) : jsstring :=
  if isLower selectedText then titleCased selectedText
  else if isTitle selectedText then toUpperCase selectedText
  else toLowerCase selectedText.

Definition toggleCase (d : Document) : Document :=
  let textStr := text d in
  let '(targetStart, targetEnd) := targetRange d in
  if targetStart =? targetEnd then d
  else
    let selectedText := substring textStr targetStart targetEnd in
    if negb (truthy selectedText) then d
    else
      let chunk := newTextChunk selectedText in
      mkDocument
        (substring textStr 0 targetStart ++ chunk ++ substringFrom textStr targetEnd)
        targetStart (targetStart + length chunk).

End CaseToggle.

(** ** Recognition results *)

Inductive Language := ES | EN | FR.

(** A result of the engine with the transcript of its first alternative,
    [results[i][0].transcript]. *)
Record SpeechRecognitionResult := mkResult {
  isFinal : bool;
  transcript : jsstring
}.

Record SpeechRecognitionEvent := mkResultEvent {
  resultIndex : nat;
  results : list SpeechRecognitionResult
}.

(** [services/textProcessing.processTextChunk] is imported by [App.tsx]. *)
Class TextProcessing := {
  processTextChunk : jsstring -> jsstring -> Language -> jsstring
}.

(** The sentence terminators [. ! ?]. *)
Definition isTerminator (c : N) : bool :=
  ((c =? 46) || (c =? 33) || (c =? 63))%N.

(** Modelled from the spec: [processTextChunk] of [services/textProcessing],
    a module that is missing.  Section 4.2: trim the raw chunk; when the
    context is empty or its last non-whitespace character is a sentence
    terminator, capitalize the first letter; otherwise leave the case as the
    recognizer produced it. *)
Definition normalize `{Unicode} (rawChunk contextText : jsstring) (_ : Language)
  : jsstring :=
  let t := trim rawChunk in
  let capitalized := toUpperCase (charAt0 t) ++ slice1 t in
  match contextText with
  | [] => capitalized
  | _ =>
      match rev (trimEnd contextText) with
      | c :: _ => if isTerminator c then capitalized else t
      | [] => t
      end
  end.

Definition specTextProcessing `{Unicode} : TextProcessing :=
  {| processTextChunk := normalize |}.

Section Results.
Context `{TextProcessing}.

(** The loop from [event.resultIndex] over the final results. *)
Definition finalTranscriptChunk (event : SpeechRecognitionEvent) : jsstring :=
  List.concat (map transcript (filter isFinal (skipn (resultIndex event) (results event)))).

Definition separator (currentText processedChunk : jsstring) : jsstring :=
  if (0 <? length currentText) && negb (endsWithWhiteSpace currentText) then
    if negb (startsWithNoSpacePunct (trim processedChunk)) then [SPACE] else []
  else [].

Definition onresult (language : Language) (event : SpeechRecognitionEvent)
  (d : Document) : Document :=
  let chunk := finalTranscriptChunk event in
  if truthy chunk then
    let currentText := text d in
    let processedChunk := processTextChunk chunk currentText language in
    insertTextAtCursor (separator currentText processedChunk ++ trim processedChunk) d
  else d.

End Results.

(** ** Playback progress

    [percentage] and the product [textLength * percentage] are doubles.  A
    finite double is a rational; the product is the exact product rounded to
    a double.  All that is used of the rounding is that it keeps the sign of
    a non-negative value and returns an integer of magnitude at most [2^53]
    unchanged. *)
Class Float64 := {
  roundDouble : Q -> Q;
  roundDouble_nonneg : forall q, (0 <= q)%Q -> (0 <= roundDouble q)%Q;
  roundDouble_integer :
    forall q z, (q == inject_Z z)%Q -> Z.abs z <= 2 ^ 53 ->
                (roundDouble q == inject_Z z)%Q
}.

(** [Math.min(Math.floor(textLength * percentage), textLength)]. *)
Definition mapProgress `{Float64} (percentage : Q) (textLength : Z) : Z :=
  Z.min (Qfloor (roundDouble (inject_Z textLength * percentage))) textLength.

(** [clamp] as the specification writes it. *)
Definition clamp (x lo hi : Z) : Z := Z.min (Z.max x lo) hi.

(** The rounding that is exact: enough for products that are doubles. *)
Definition exactFloat64 : Float64.
Proof.
  refine {| roundDouble := fun q => q |}.
  - intros q Hq. exact Hq.
  - intros q z Hq _. exact Hq.
Defined.

(** ** The component state and its handlers *)

Inductive AudioState := Idle | Loading | Playing.

(** Calls made on the recognition engine, oldest first. *)
Inductive EngineCall := EngineStart | EngineStop.

(** What a call of [recognition.start()] does: it returns or it throws. *)
Inductive Outcome := Returns | Throws.

(** The speech-synthesis side of one [speakText] call: requested (the promise
    is pending, there is no stop function yet), speaking, cancelled through
    its stop function, or completed. *)
Inductive UtteranceStatus := Requested | Speaking | Cancelled | Completed.

Record Utterance := mkUtterance {
  utteranceLength : Z;
  utteranceStatus : UtteranceStatus
}.

Record App := mkApp {
  doc : Document;
  language : Language;
  isListening : bool;
  audioState : AudioState;
  recognitionRef : bool;
  shouldListenRef : bool;
  stopAudioRef : option nat;
  engineCalls : list EngineCall;
  utterances : list Utterance
}.

Definition withDoc (d : Document) (s : App) : App :=
  mkApp d (language s) (isListening s) (audioState s) (recognitionRef s)
        (shouldListenRef s) (stopAudioRef s) (engineCalls s) (utterances s).

Definition setIsListening (b : bool) (s : App) : App :=
  mkApp (doc s) (language s) b (audioState s) (recognitionRef s)
        (shouldListenRef s) (stopAudioRef s) (engineCalls s) (utterances s).

Definition setAudioState (a : AudioState) (s : App) : App :=
  mkApp (doc s) (language s) (isListening s) a (recognitionRef s)
        (shouldListenRef s) (stopAudioRef s) (engineCalls s) (utterances s).

Definition setShouldListen (b : bool) (s : App) : App :=
  mkApp (doc s) (language s) (isListening s) (audioState s) (recognitionRef s)
        b (stopAudioRef s) (engineCalls s) (utterances s).

Definition setStopAudioRef (h : option nat) (s : App) : App :=
  mkApp (doc s) (language s) (isListening s) (audioState s) (recognitionRef s)
        (shouldListenRef s) h (engineCalls s) (utterances s).

Definition callEngine (c : EngineCall) (s : App) : App :=
  mkApp (doc s) (language s) (isListening s) (audioState s) (recognitionRef s)
        (shouldListenRef s) (stopAudioRef s) (engineCalls s ++ [c]) (utterances s).

Definition withUtterances (us : list Utterance) (s : App) : App :=
  mkApp (doc s) (language s) (isListening s) (audioState s) (recognitionRef s)
        (shouldListenRef s) (stopAudioRef s) (engineCalls s) us.

Fixpoint setStatus (id : nat) (st : UtteranceStatus) (us : list Utterance)
  : list Utterance :=
  match us, id with
  | [], _ => []
  | u :: r, O => mkUtterance (utteranceLength u) st :: r
  | u :: r, S n => u :: setStatus n st r
  end.

Definition statusOf (id : nat) (s : App) : option UtteranceStatus :=
  option_map utteranceStatus (nth_error (utterances s) id).

Definition notIdle (s : App) : bool :=
  match audioState s with Idle => false | _ => true end.

Inductive KeyType := KEY_CHAR | BACKSPACE | ENTER | KEY_SPACE | DELETE_WORD | TOGGLE_CASE.

Section Component.
Context `{Unicode} `{TextProcessing} `{Float64}.

(** [handleStopAudio]: call the stored stop function, if there is one, and
    forget it; the audio state becomes idle either way. *)
Definition handleStopAudio (s : App) : App :=
  let s1 :=
    match stopAudioRef s with
    | Some id => setStopAudioRef None (withUtterances (setStatus id Cancelled (utterances s)) s)
    | None => s
    end in
  setAudioState Idle s1.

(** [toggleListening]; [o] is what [recognition.start()] does if it is called. *)
Definition toggleListening (o : Outcome) (s : App) : App :=
  if negb (recognitionRef s) then s
  else if shouldListenRef s then
    setIsListening false (callEngine EngineStop (setShouldListen false s))
  else
    let s1 := if notIdle s then handleStopAudio s else s in
    let s2 := callEngine EngineStart (setShouldListen true s1) in
    match o with
    | Returns => setIsListening true s2
    | Throws => setShouldListen false (setIsListening false s2)
    end.

Definition onerror (error : string) (s : App) : App :=
  if (String.eqb error "not-allowed" || String.eqb error "service-not-allowed")%string
  then setShouldListen false (setIsListening false s)
  else s.

(** [onend]; [o] is what [recognition.start()] does if it is called. *)
Definition onend (o : Outcome) (s : App) : App :=
  if shouldListenRef s then
    let s1 := callEngine EngineStart s in
    match o with
    | Returns => s1
    | Throws => setShouldListen false (setIsListening false s1)
    end
  else setIsListening false s.

Definition handleKeyboardPress (key : jsstring) (type : KeyType) (s : App) : App :=
  let s1 := if notIdle s then handleStopAudio s else s in
  let d := doc s1 in
  withDoc
    match type with
    | BACKSPACE => deleteAtCursor CHAR d
    | DELETE_WORD => deleteAtCursor WORD d
    | TOGGLE_CASE => toggleCase d
    | _ => insertTextAtCursor key d
    end s1.

(** The textarea's [onChange]: the browser has edited the value and placed
    the caret, giving [d]. *)
Definition onChange (d : Document) (s : App) : App :=
  let s1 := withDoc d s in
  if notIdle s then handleStopAudio s1 else s1.

Definition handleClear (s : App) : App :=
  let s1 := withDoc (mkDocument [] 0 0) s in
  if notIdle s then handleStopAudio s1 else s1.

(** [handlePlay] up to its [await]: the request is the new last utterance. *)
Definition handlePlay (s : App) : App :=
  if negb (truthy (trim (text (doc s)))) then s
  else
    let s1 := if shouldListenRef s then toggleListening Returns s else s in
    let textLength := length (text (doc s)) in
    withUtterances (utterances s1 ++ [mkUtterance textLength Requested])
                   (setAudioState Loading s1).

(** [handlePlay] after its [await]: [stopAudioRef.current = stopFn]. *)
Definition handlePlayResumed (id : nat) (s : App) : App :=
  setStopAudioRef (Some id) (withUtterances (setStatus id Speaking (utterances s)) s).

(** The progress callback of utterance [id], whose closure holds
    [textLength]; [setSelectionRange] converts its arguments to unsigned
    long and clamps them to the current value. *)
Definition onProgress (textLength : Z) (percentage : Q) (s : App) : App :=
  let cursorPosition := mapProgress percentage textLength in
  let d := doc s in
  let c := clampIndex (text d) (toUnsignedLong cursorPosition) in
  withDoc (mkDocument (text d) c c) (setAudioState Playing s).

(** The completion callback. *)
Definition onComplete (id : nat) (s : App) : App :=
  setStopAudioRef None
    (setAudioState Idle (withUtterances (setStatus id Completed (utterances s)) s)).

(** The callbacks the event loop dispatches, one at a time. *)
Inductive Event :=
| Toggle (o : Outcome)
| EngineResult (event : SpeechRecognitionEvent)
| EngineError (error : string)
| EngineEnd (o : Outcome)
| KeyPress (key : jsstring) (type : KeyType)
| TextEdit (d : Document)
| Clear
| Play
| StopAudio
| SpeakResolved (id : nat)
| Progress (id : nat) (percentage : Q)
| Complete (id : nat).

(** One dispatch.  The synthesis callbacks are dispatched only for an
    utterance in the right status: the promise of a requested utterance
    resolves once, and progress and completion are reported only while it
    speaks. *)
Definition step (e : Event) (s : App) : option App :=
  match e with
  | Toggle o => Some (toggleListening o s)
  | EngineResult event => Some (withDoc (onresult (language s) event (doc s)) s)
  | EngineError error => Some (onerror error s)
  | EngineEnd o => Some (onend o s)
  | KeyPress key type => Some (handleKeyboardPress key type s)
  | TextEdit d => Some (onChange d s)
  | Clear => Some (handleClear s)
  | Play => Some (handlePlay s)
  | StopAudio => Some (handleStopAudio s)
  | SpeakResolved id =>
      match statusOf id s with
      | Some Requested => Some (handlePlayResumed id s)
      | _ => None
      end
  | Progress id percentage =>
      match nth_error (utterances s) id with
      | Some (mkUtterance textLength Speaking) => Some (onProgress textLength percentage s)
      | _ => None
      end
  | Complete id =>
      match statusOf id s with
      | Some Speaking => Some (onComplete id s)
      | _ => None
      end
  end.

Fixpoint run (es : list Event) (s : App) : option App :=
  match es with
  | [] => Some s
  | e :: r => match step e s with Some s' => run r s' | None => None end
  end.

(** A run of [end] events with the outcomes of the restarts. *)
Definition onends (os : list Outcome) (s : App) : App :=
  fold_left (fun s o => onend o s) os s.

Definition isToggle (e : Event) : bool :=
  match e with Toggle _ => true | _ => false end.

End Component.

(** The component as mounted: empty text, nothing running. *)
Definition initialApp (lang : Language) : App :=
  mkApp (mkDocument [] 0 0) lang false Idle true false None [] [].

(** Between dispatches the listening flag and the intent agree, and there is
    an intent only with an engine. *)
Definition sessionInvariant (s : App) : Prop :=
  isListening s = shouldListenRef s
  /\ (shouldListenRef s = true -> recognitionRef s = true).

(** The visual half of [insertTextAtCursor]: what the deferred callback does
    with the viewport once the caret is placed.  [overflows] is the layout
    test [textarea.scrollHeight > textarea.clientHeight]. *)
Inductive ScrollEffect := ScrollToBottom | BlurThenFocus | FocusOnly.

Definition insertScrollEffect (overflows : bool) (textToInsert : jsstring)
  (d : Document) : ScrollEffect :=
  let d' := insertTextAtCursor textToInsert d in
  let newCursorPos := selectionStart d' in
  let newText := text d' in
  if overflows then
    if length newText - 5 <=? newCursorPos then ScrollToBottom else BlurThenFocus
  else FocusOnly.

(** The browser hands [onChange] a value with its selection inside it. *)
Definition validEvent (e : Event) : Prop :=
  match e with TextEdit d => validDocument d | _ => True end.

(** How many times [recognition.start()] and [recognition.stop()] were
    called. *)
Definition startCalls (s : App) : nat :=
  List.length (filter (fun c => match c with EngineStart => true | _ => false end)
                      (engineCalls s)).

Definition stopCalls (s : App) : nat :=
  List.length (filter (fun c => match c with EngineStop => true | _ => false end)
                      (engineCalls s)).

(** A unit that can be part of a word. *)
Definition notBoundary `{Unicode} (c : N) : bool := negb (isBoundary c).

(** The engine was started at least as often as it was stopped, once more
    while there is an intent to listen. *)
Definition engineBalance (s : App) : Prop :=
  (stopCalls s + (if shouldListenRef s then 1 else 0) <= startCalls s)%nat.

(** Every utterance was requested for a text that is not empty. *)
Definition utterancesPositive (s : App) : Prop :=
  Forall (fun n => 0 < n) (map utteranceLength (utterances s)).

(** The dispatches that are neither a tap on the microphone, nor an engine
    error or end, nor a request for playback. *)
Definition sessionNeutral (e : Event) : bool :=
  match e with
  | Toggle _ | EngineError _ | EngineEnd _ | Play => false
  | _ => true
  end.

(** The classes of a selection in the words of section 4.3 of the
    specification: all-upper, all-lower, title-case (first letter upper,
    remainder lower, not all-upper); a selection in none of them is mixed. *)
Definition AllUpper `{Unicode} (t : jsstring) : Prop := t = toUpperCase t.

Definition AllLower `{Unicode} (t : jsstring) : Prop := t = toLowerCase t.

Definition TitleCase `{Unicode} (t : jsstring) : Prop :=
  charAt0 t = toUpperCase (charAt0 t)
  /\ slice1 t = toLowerCase (slice1 t)
  /\ ~ AllUpper t.

(** A text of ASCII units, on which [Ascii7.unicode] is the tables of the
    host. *)
Definition asciiText (t : jsstring) : Prop := Forall (fun c => (c < 128)%N) t.

(** ** The textarea between animation frames

    [insertTextAtCursor] and [deleteAtCursor] read the value and the
    selection of the textarea, call [setText], and leave the caret to a
    callback that runs at the next animation frame.  Until that frame the
    textarea shows the new text with whatever selection the host gave it on
    rendering, [host] below; [frames] are the carets that the scheduled
    callbacks will place, oldest first. *)
Record Textarea := mkTextarea {
  shown : Document;
  frames : list Z
}.

Definition insertCall (textToInsert : jsstring) (host : Z * Z) (ta : Textarea)
  : Textarea :=
  let start := selectionStart (shown ta) in
  let end_ := selectionEnd (shown ta) in
  let currentText := text (shown ta) in
  let newText :=
    substring currentText 0 start ++ textToInsert ++ substringFrom currentText end_ in
  mkTextarea (mkDocument newText (fst host) (snd host))
             (frames ta ++ [start + length textToInsert]).


(** [textarea.selectionStart = textarea.selectionEnd = c] in a callback. *)
Definition placeCaret (c : Z) (d : Document) : Document :=
  let c' := clampIndex (text d) (toUnsignedLong c) in
  mkDocument (text d) c' c'.

(** The animation frame: the scheduled callbacks run, in order. *)
Definition runFrames (ta : Textarea) : Textarea :=
  mkTextarea (fold_left (fun d c => placeCaret c d) (frames ta) (shown ta)) [].

(** * Properties *)

(** ** String primitives *)

Lemma length_nonneg (s : jsstring) : 0 <= length s.
Proof. unfold length. lia. Qed.

Lemma length_app (a b : jsstring) : length (a ++ b) = length a + length b.
Proof. unfold length. rewrite List.length_app. lia. Qed.

Lemma clampIndex_id (s : jsstring) (i : Z) :
  0 <= i <= length s -> clampIndex s i = i.
Proof. unfold clampIndex. lia. Qed.

Lemma substring_prefix (s : jsstring) (a : Z) :
  0 <= a <= length s -> substring s 0 a = firstn (Z.to_nat a) s.
Proof.
  intros Ha. unfold substring.
  rewrite (clampIndex_id s a) by exact Ha.
  rewrite (clampIndex_id s 0) by (pose proof (length_nonneg s); lia).
  replace (Z.min 0 a) with 0 by lia.
  replace (Z.max 0 a - 0) with a by lia.
  reflexivity.
Qed.

Lemma substringFrom_skipn (s : jsstring) (a : Z) :
  0 <= a <= length s -> substringFrom s a = skipn (Z.to_nat a) s.
Proof. intros Ha. unfold substringFrom. now rewrite clampIndex_id. Qed.

Lemma length_substring_prefix (s : jsstring) (a : Z) :
  0 <= a <= length s -> length (substring s 0 a) = a.
Proof.
  intros Ha. rewrite substring_prefix by exact Ha.
  unfold length in *. rewrite List.length_firstn. lia.
Qed.

Lemma length_substringFrom (s : jsstring) (a : Z) :
  0 <= a <= length s -> length (substringFrom s a) = length s - a.
Proof.
  intros Ha. rewrite substringFrom_skipn by exact Ha.
  unfold length in *. rewrite List.length_skipn. lia.
Qed.


(** Reading back a piece of a concatenation. *)
Lemma substring_app_middle (p m q : jsstring) :
  substring (p ++ m ++ q) (length p) (length p + length m) = m.
Proof.
  unfold substring, clampIndex.
  rewrite !length_app.
  pose proof (length_nonneg p). pose proof (length_nonneg m).
  pose proof (length_nonneg q).
  replace (Z.min (Z.max (length p) 0) (length p + (length m + length q)))
    with (length p) by lia.
  replace (Z.min (Z.max (length p + length m) 0) (length p + (length m + length q)))
    with (length p + length m) by lia.
  replace (Z.min (length p) (length p + length m)) with (length p) by lia.
  replace (Z.max (length p) (length p + length m) - length p) with (length m) by lia.
  unfold length. rewrite !Nat2Z.id.
  rewrite skipn_app, skipn_all, Nat.sub_diag. simpl.
  rewrite firstn_app, firstn_all, Nat.sub_diag. simpl.
  now rewrite app_nil_r.
Qed.

Lemma substring_app_prefix (p q : jsstring) :
  substring (p ++ q) 0 (length p) = p.
Proof.
  pose proof (substring_app_middle [] p q) as E. simpl in E.
  exact E.
Qed.

Lemma substringFrom_app (p q : jsstring) :
  substringFrom (p ++ q) (length p) = q.
Proof.
  rewrite substringFrom_skipn.
  - unfold length. rewrite Nat2Z.id, skipn_app, skipn_all, Nat.sub_diag.
    reflexivity.
  - rewrite length_app. pose proof (length_nonneg p).
    pose proof (length_nonneg q). lia.
Qed.

Lemma trimEnd_length (s : jsstring) : length (trimEnd s) <= length s.
Proof.
  unfold length. induction s as [|c r IH]; simpl; [lia|].
  destruct (trimEnd r) as [|x r'] eqn:E.
  - destruct (isWhiteSpace c); simpl in *; lia.
  - simpl in *. lia.
Qed.

Lemma trimEnd_not_endsWithWhiteSpace (s : jsstring) :
  endsWithWhiteSpace (trimEnd s) = false.
Proof.
  unfold endsWithWhiteSpace. induction s as [|c r IH]; simpl; [reflexivity|].
  destruct (trimEnd r) as [|x r'] eqn:E.
  - destruct (isWhiteSpace c) eqn:W; simpl; [reflexivity|exact W].
  - change (rev (c :: x :: r')) with (rev (x :: r') ++ [c]).
    destruct (rev (x :: r')) as [|y t] eqn:R.
    + apply (f_equal (@List.length N)) in R.
      rewrite List.length_rev in R. discriminate R.
    + simpl. exact IH.
Qed.

(** What [trimEnd] removes is a run of whitespace. *)
Lemma trimEnd_decompose (s : jsstring) :
  exists w, s = trimEnd s ++ w /\ forallb isWhiteSpace w = true.
Proof.
  induction s as [|c r [w [E W]]]; simpl.
  - exists []. split; reflexivity.
  - destruct (trimEnd r) as [|x r'] eqn:T.
    + destruct (isWhiteSpace c) eqn:C.
      * exists (c :: w). simpl in *. rewrite C, W. split; [now rewrite E at 1|reflexivity].
      * exists w. simpl in *. split; [now rewrite E at 1|exact W].
    + exists w. split; [|exact W]. simpl. now rewrite E at 1.
Qed.

(** [lastIndexOf] finds the last occurrence, or [-1] when there is none. *)
Lemma lastIndexOfFrom_spec (c : N) (s : jsstring) (i : Z) :
  0 <= i ->
  (lastIndexOfFrom c s i = -1 /\ ~ In c s)
  \/ (exists p q, s = p ++ c :: q /\ ~ In c q
                  /\ lastIndexOfFrom c s i = i + length p).
Proof.
  revert i. induction s as [|x r IH]; intros i Hi; simpl.
  - left. split; [reflexivity|tauto].
  - destruct (IH (i + 1)) as [[E Hn]|[p [q [Es [Hq E]]]]]; [lia| |].
    + rewrite E. simpl. destruct (N.eqb_spec x c) as [->|Hx].
      * right. exists [], r. repeat split; trivial. unfold length. simpl. lia.
      * left. split; [reflexivity|]. intros [F|F]; [now apply Hx|now apply Hn].
    + right. exists (x :: p), q. rewrite E.
      pose proof (length_nonneg p).
      replace (0 <=? i + 1 + length p) with true by (symmetry; apply Z.leb_le; lia).
      repeat split; trivial.
      * now rewrite Es.
      * unfold length. simpl List.length. lia.
Qed.

Lemma lastIndexOf_spec (c : N) (s : jsstring) :
  (lastIndexOf c s = -1 /\ ~ In c s)
  \/ (exists p q, s = p ++ c :: q /\ ~ In c q /\ lastIndexOf c s = length p).
Proof.
  destruct (lastIndexOfFrom_spec c s 0) as [L|[p [q [E [Hq L]]]]]; [lia|now left|].
  right. exists p, q. repeat split; trivial.
Qed.

(** After a space found in a trimmed prefix there is at least one unit. *)
Lemma space_not_last_of_trimmed (s p q : jsstring) :
  trimEnd s = p ++ SPACE :: q -> q <> [].
Proof.
  intros E ->. pose proof (trimEnd_not_endsWithWhiteSpace s) as W.
  rewrite E in W. unfold endsWithWhiteSpace in W.
  rewrite rev_app_distr in W. simpl in W. discriminate W.
Qed.

(** The word boundary lies strictly before a caret that is not at 0. *)
Lemma wordTargetIndex_bounds (currentText : jsstring) (start : Z) :
  0 < start <= length currentText ->
  0 <= wordTargetIndex currentText start < start.
Proof.
  intros Hs. unfold wordTargetIndex.
  set (t := trimEnd (substring currentText 0 start)).
  assert (Ht : length t <= start).
  { pose proof (trimEnd_length (substring currentText 0 start)) as L.
    rewrite length_substring_prefix in L by lia. exact L. }
  destruct (lastIndexOf_spec SPACE t) as [[E _]|[p [q [Et [_ E]]]]].
  - rewrite E. simpl. lia.
  - pose proof (space_not_last_of_trimmed _ _ _ Et) as Hq.
    pose proof (length_nonneg p).
    assert (length t = length p + 1 + length q).
    { rewrite Et, length_app. unfold length. simpl List.length. lia. }
    assert (0 < length q).
    { destruct q; [congruence|]. unfold length. simpl. lia. }
    rewrite E.
    destruct (Z.eqb_spec (length p) (-1)); lia.
Qed.

Lemma wordTargetIndex_no_space (currentText : jsstring) (start : Z) :
  ~ In SPACE (trimEnd (substring currentText 0 start)) ->
  wordTargetIndex currentText start = 0.
Proof.
  intros Hn. unfold wordTargetIndex.
  destruct (lastIndexOf_spec SPACE (trimEnd (substring currentText 0 start)))
    as [[E _]|[p [q [Et _]]]].
  - now rewrite E.
  - exfalso. apply Hn. rewrite Et. apply in_or_app. right. now left.
Qed.

Lemma wordTargetIndex_last_space (currentText : jsstring) (start : Z) (p q : jsstring) :
  trimEnd (substring currentText 0 start) = p ++ SPACE :: q ->
  ~ In SPACE q ->
  wordTargetIndex currentText start = length p + 1.
Proof.
  intros Et Hq. unfold wordTargetIndex.
  destruct (lastIndexOf_spec SPACE (trimEnd (substring currentText 0 start)))
    as [[_ Hn]|[p' [q' [Et' [Hq' E]]]]].
  - exfalso. apply Hn. rewrite Et. apply in_or_app. right. now left.
  - assert (p' = p) as ->.
    { rewrite Et in Et'. clear - Et' Hq Hq'.
      revert p' Et'. induction p as [|x p IH]; intros [|y p'] Et'; simpl in *.
      - reflexivity.
      - injection Et' as <- ->. exfalso. apply Hq. apply in_or_app. right. now left.
      - injection Et' as -> <-. exfalso. apply Hq'. apply in_or_app. right. now left.
      - injection Et' as <- Et'. f_equal. now apply IH. }
    rewrite E. pose proof (length_nonneg p).
    destruct (Z.eqb_spec (length p) (-1)); lia.
Qed.

(** The word branch when the caret is collapsed and not at 0. *)
Lemma deleteAtCursor_word_eq (d : Document) :
  validDocument d -> selectionStart d = selectionEnd d -> 0 < selectionStart d ->
  deleteAtCursor WORD d =
    let b := wordTargetIndex (text d) (selectionStart d) in
    mkDocument (substring (text d) 0 b ++ substringFrom (text d) (selectionStart d)) b b.
Proof.
  intros (H0 & H1 & H2) Hc Hp.
  pose proof (wordTargetIndex_bounds (text d) (selectionStart d)) as B.
  unfold deleteAtCursor, wordDeleteCount. rewrite <- Hc.
  rewrite Z.eqb_refl. simpl.
  destruct (Z.eqb_spec (selectionStart d) 0) as [E|_]; [lia|].
  set (b := wordTargetIndex (text d) (selectionStart d)) in *.
  destruct (Z.eqb_spec (selectionStart d - b) 0) as [E|_]; [lia|].
  simpl. replace (selectionStart d - (selectionStart d - b)) with b by lia.
  reflexivity.
Qed.

Lemma substring_0_0 (s : jsstring) : substring s 0 0 = [].
Proof.
  unfold substring, clampIndex. pose proof (length_nonneg s).
  replace (Z.min (Z.max 0 0) (length s)) with 0 by lia. reflexivity.
Qed.

(** ** Insertion at the cursor *)

(** C3, as amended.  For every valid document and every string [s],
    [insertTextAtCursor] replaces the range [selectionStart .. selectionEnd]
    by [s]: what was before the range and what was after it are kept, the
    new length is the old length minus the length of the replaced range plus
    the length of [s] (so the old length plus the length of [s] when the
    selection is collapsed), and the caret is collapsed at
    [selectionStart + length s]. *)
Theorem insertTextAtCursor_replaces_range (d : Document) (s : jsstring) :
  validDocument d ->
  let d' := insertTextAtCursor s d in
  length (text d')
    = length (text d) - (selectionEnd d - selectionStart d) + length s
  /\ selectionStart d' = selectionStart d + length s
  /\ selectionEnd d' = selectionStart d'
  /\ substring (text d') 0 (selectionStart d) = substring (text d) 0 (selectionStart d)
  /\ substring (text d') (selectionStart d) (selectionStart d + length s) = s
  /\ substringFrom (text d') (selectionStart d + length s)
     = substringFrom (text d) (selectionEnd d)
  /\ (selectionStart d = selectionEnd d ->
      length (text d') = length (text d) + length s)
  /\ validDocument d'.
Proof.
  intros (H0 & H1 & H2). cbv zeta. unfold insertTextAtCursor. simpl.
  set (p := substring (text d) 0 (selectionStart d)).
  set (q := substringFrom (text d) (selectionEnd d)).
  assert (Lp : length p = selectionStart d)
    by (apply length_substring_prefix; lia).
  assert (Lq : length q = length (text d) - selectionEnd d)
    by (apply length_substringFrom; lia).
  assert (L : length (p ++ s ++ q)
              = length (text d) - (selectionEnd d - selectionStart d) + length s)
    by (rewrite !length_app; lia).
  repeat split.
  - exact L.
  - rewrite <- Lp at 1. apply (substring_app_prefix p (s ++ q)).
  - rewrite <- Lp. apply substring_app_middle.
  - rewrite <- Lp, <- length_app, app_assoc. apply substringFrom_app.
  - intros Hc. lia.
  - unfold validDocument. simpl. pose proof (length_nonneg s). lia.
  - unfold validDocument. simpl. lia.
  - unfold validDocument. simpl. pose proof (length_nonneg s). lia.
Qed.

Lemma insertTextAtCursor_replaces_range_witness :
  text (insertTextAtCursor (js "xy") (mkDocument (js "abcd") 1 3)) = js "axyd"
  /\ length (text (insertTextAtCursor (js "xy") (mkDocument (js "abcd") 1 3)))
     = length (js "abcd") - (3 - 1) + length (js "xy")
  /\ length (text (insertTextAtCursor (js "xy") (mkDocument (js "abcd") 2 2)))
     = length (js "abcd") + length (js "xy").
Proof.
  split; [reflexivity|]. split.
  - apply (insertTextAtCursor_replaces_range (mkDocument (js "abcd") 1 3) (js "xy")).
    vm_compute. repeat split; discriminate.
  - apply (insertTextAtCursor_replaces_range (mkDocument (js "abcd") 2 2) (js "xy")).
    + vm_compute. repeat split; discriminate.
    + reflexivity.
Defined.

(** C3 as first stated, with the new length the old length plus the length
    of the inserted string, fails over a selection that is not collapsed:
    replacing all of "abc" by "x" leaves one unit, not four. *)
Lemma insertTextAtCursor_length_over_selection :
  validDocument (mkDocument (js "abc") 0 3)
  /\ length (text (insertTextAtCursor (js "x") (mkDocument (js "abc") 0 3)))
     <> length (text (mkDocument (js "abc") 0 3)) + length (js "x").
Proof.
  split.
  - vm_compute. repeat split; discriminate.
  - vm_compute. discriminate.
Qed.

(** ** Deletion at the cursor *)

(** C6.  With a collapsed caret at [p > 0], the word mode of [deleteAtCursor]
    deletes back to the boundary [lastSpaceIndex + 1] of the trimmed prefix
    (0 when it has no space) and leaves the caret there; the delete count
    falls back to one when the computed count is zero, which the boundary,
    being strictly before the caret, never makes it; and on "hello world"
    with the caret at 11 the result is "hello " with the caret at 6. *)
Theorem deleteAtCursor_word_boundary (d : Document) :
  validDocument d -> selectionStart d = selectionEnd d -> 0 < selectionStart d ->
  let p := selectionStart d in
  let trimmedBefore := trimEnd (substring (text d) 0 p) in
  let lastSpaceIndex := lastIndexOf SPACE trimmedBefore in
  let boundary := if lastSpaceIndex =? -1 then 0 else lastSpaceIndex + 1 in
  deleteAtCursor WORD d
    = mkDocument (substring (text d) 0 boundary ++ substringFrom (text d) p)
                 boundary boundary
  /\ 0 <= boundary < p
  /\ wordDeleteCount p boundary = p - boundary
  /\ wordDeleteCount p p = 1
  /\ deleteAtCursor WORD (mkDocument (js "hello world") 11 11)
     = mkDocument (js "hello ") 6 6.
Proof.
  intros Hv Hc Hp. cbv zeta.
  pose proof (wordTargetIndex_bounds (text d) (selectionStart d)) as B.
  unfold wordTargetIndex in B. cbv zeta in B.
  destruct Hv as (H0 & H1 & H2).
  specialize (B ltac:(lia)).
  split; [|split; [exact B|split; [|split]]].
  - rewrite deleteAtCursor_word_eq; [reflexivity| |exact Hc|exact Hp].
    repeat split; assumption.
  - unfold wordDeleteCount.
    destruct (Z.eqb_spec
      (selectionStart d -
       (if lastIndexOf SPACE (trimEnd (substring (text d) 0 (selectionStart d))) =? -1
        then 0
        else lastIndexOf SPACE (trimEnd (substring (text d) 0 (selectionStart d))) + 1))
      0) as [E|_]; [lia|reflexivity].
  - unfold wordDeleteCount. rewrite Z.sub_diag. simpl.
    destruct (Z.ltb_spec 0 (selectionStart d)); [reflexivity|lia].
  - reflexivity.
Qed.

Lemma deleteAtCursor_word_boundary_witness :
  deleteAtCursor WORD (mkDocument (js "uno dos  ") 9 9) = mkDocument (js "uno ") 4 4.
Proof.
  apply (deleteAtCursor_word_boundary (mkDocument (js "uno dos  ") 9 9)).
  - vm_compute. repeat split; discriminate.
  - reflexivity.
  - reflexivity.
Defined.

(** C10.  The boundary search of the word mode knows one separator, the
    ASCII space: when the trimmed prefix before the caret has no U+0020
    (whatever newlines or tabs it has) the delete removes everything before
    the caret, and otherwise it removes everything after the last U+0020 of
    the trimmed prefix, line breaks included. *)
Theorem deleteAtCursor_word_only_ascii_space (d : Document) :
  validDocument d -> selectionStart d = selectionEnd d -> 0 < selectionStart d ->
  let p := selectionStart d in
  let trimmedBefore := trimEnd (substring (text d) 0 p) in
  (~ In SPACE trimmedBefore ->
   deleteAtCursor WORD d = mkDocument (substringFrom (text d) p) 0 0)
  /\ (forall before word,
        trimmedBefore = before ++ SPACE :: word -> ~ In SPACE word ->
        deleteAtCursor WORD d
        = mkDocument
            (substring (text d) 0 (length before + 1) ++ substringFrom (text d) p)
            (length before + 1) (length before + 1)).
Proof.
  intros Hv Hc Hp. cbv zeta. split.
  - intros Hn. rewrite deleteAtCursor_word_eq by assumption. cbv zeta.
    rewrite wordTargetIndex_no_space by exact Hn.
    now rewrite substring_0_0.
  - intros before word Et Hw. rewrite deleteAtCursor_word_eq by assumption.
    cbv zeta. now rewrite (wordTargetIndex_last_space _ _ _ _ Et Hw).
Qed.

Lemma deleteAtCursor_word_only_ascii_space_witness :
  deleteAtCursor WORD (mkDocument (js "uno" ++ [10%N] ++ js "dos" ++ [9%N] ++ js "tres") 12 12)
    = mkDocument [] 0 0
  /\ deleteAtCursor WORD (mkDocument (js "a b" ++ [10%N] ++ js "c") 5 5)
    = mkDocument (js "a ") 2 2.
Proof.
  split.
  - apply (deleteAtCursor_word_only_ascii_space
             (mkDocument (js "uno" ++ [10%N] ++ js "dos" ++ [9%N] ++ js "tres") 12 12)).
    + vm_compute. repeat split; discriminate.
    + reflexivity.
    + reflexivity.
    + vm_compute. intros F.
      repeat (destruct F as [F|F]; [discriminate F|]). exact F.
  - apply (proj2 (deleteAtCursor_word_only_ascii_space
                    (mkDocument (js "a b" ++ [10%N] ++ js "c") 5 5)
                    ltac:(vm_compute; repeat split; discriminate) eq_refl eq_refl)
                 (js "a") (js "b" ++ [10%N] ++ js "c")).
    + reflexivity.
    + vm_compute. intros F.
      repeat (destruct F as [F|F]; [discriminate F|]). exact F.
Defined.

(** ** Case toggling *)

Lemma length_substring (s : jsstring) (a b : Z) :
  0 <= a <= b -> b <= length s -> length (substring s a b) = b - a.
Proof.
  intros Ha Hb. unfold substring.
  rewrite (clampIndex_id s a), (clampIndex_id s b) by lia.
  replace (Z.min a b) with a by lia. replace (Z.max a b) with b by lia.
  unfold length in *. rewrite List.length_firstn, List.length_skipn. lia.
Qed.

Section CaseToggleFacts.
Context `{Unicode}.

Lemma scanLeft_le (textStr : jsstring) (n : nat) : (scanLeft textStr n <= n)%nat.
Proof.
  induction n as [|m IH]; simpl; [lia|].
  destruct (nth_error textStr m) as [c|]; [destruct (isBoundary c)|]; lia.
Qed.

Lemma scanRightFrom_bounds (rest : jsstring) (e : Z) :
  e <= scanRightFrom rest e <= e + length rest.
Proof.
  revert e. induction rest as [|c r IH]; intros e; simpl.
  - unfold length. simpl. lia.
  - unfold length in *. simpl List.length.
    destruct (isBoundary c); [lia|]. specialize (IH (e + 1)). lia.
Qed.

(** The range that is toggled contains the selection and lies in the text. *)
Lemma targetRange_bounds (d : Document) (ts te : Z) :
  validDocument d -> targetRange d = (ts, te) ->
  0 <= ts <= selectionStart d /\ selectionEnd d <= te <= length (text d).
Proof.
  intros (H0 & H1 & H2) E. unfold targetRange in E.
  destruct (Z.eqb_spec (selectionStart d) (selectionEnd d)) as [Hc|Hc].
  - injection E as <- <-.
    pose proof (scanLeft_le (text d) (Z.to_nat (selectionStart d))).
    pose proof (scanRightFrom_bounds
                  (skipn (Z.to_nat (selectionEnd d)) (text d))
                  (Z.max (selectionEnd d) 0)) as B.
    unfold length in B, H2 |- *. rewrite List.length_skipn in B.
    destruct (Z.ltb_spec 0 (selectionStart d)); lia.
  - injection E as <- <-. lia.
Qed.

Lemma truthy_length (s : jsstring) : 0 < length s -> truthy s = true.
Proof. destruct s; unfold length; simpl; [lia|reflexivity]. Qed.

End CaseToggleFacts.

Lemma eqb_true_iff (a b : jsstring) : eqb a b = true <-> a = b.
Proof. unfold eqb. destruct (list_eq_dec N.eq_dec a b); split; congruence. Qed.

(** The chunk that replaces a selection, class by class. *)
Lemma newTextChunk_by_class `{Unicode} (t : jsstring) :
  (AllLower t -> newTextChunk t = toUpperCase (charAt0 t) ++ toLowerCase (slice1 t))
  /\ (TitleCase t -> ~ AllLower t -> newTextChunk t = toUpperCase t)
  /\ (AllUpper t -> ~ AllLower t -> newTextChunk t = toLowerCase t)
  /\ (~ AllLower t -> ~ AllUpper t -> ~ TitleCase t ->
      newTextChunk t = toLowerCase t).
Proof.
  unfold newTextChunk, titleCased, isLower, isTitle, isUpper, eqb,
    AllLower, AllUpper, TitleCase.
  destruct (list_eq_dec N.eq_dec t (toLowerCase t));
    destruct (list_eq_dec N.eq_dec (charAt0 t) (toUpperCase (charAt0 t)));
    destruct (list_eq_dec N.eq_dec (slice1 t) (toLowerCase (slice1 t)));
    destruct (list_eq_dec N.eq_dec t (toUpperCase t));
    simpl; repeat split; intros; try reflexivity; tauto.
Qed.

(** C5, as amended.  [toggleCase] replaces the target range (the selection,
    or the word around a collapsed caret): an all-lower selection by its
    title-cased form, also when it passes the title-case test; a title-case
    selection that is not all-lower by its upper-cased form; an all-upper
    selection that is not all-lower, and a mixed one, by its lower-cased
    form.  The selection afterwards is exactly the replaced range.  On
    "cat", selected or with the caret inside, three toggles give "Cat",
    "CAT" and "cat"; "A" gives "a". *)
Theorem toggleCase_by_class `{Unicode} (d : Document) (targetStart targetEnd : Z) :
  validDocument d ->
  targetRange d = (targetStart, targetEnd) ->
  targetStart <> targetEnd ->
  let selectedText := substring (text d) targetStart targetEnd in
  let d' := toggleCase d in
  exists chunk,
    text d' = substring (text d) 0 targetStart ++ chunk
                ++ substringFrom (text d) targetEnd
    /\ selectionStart d' = targetStart
    /\ selectionEnd d' = targetStart + length chunk
    /\ substring (text d') (selectionStart d') (selectionEnd d') = chunk
    /\ (AllLower selectedText ->
        chunk = toUpperCase (charAt0 selectedText)
                  ++ toLowerCase (slice1 selectedText))
    /\ (TitleCase selectedText -> ~ AllLower selectedText ->
        chunk = toUpperCase selectedText)
    /\ (AllUpper selectedText -> ~ AllLower selectedText ->
        chunk = toLowerCase selectedText)
    /\ (~ AllLower selectedText -> ~ AllUpper selectedText ->
        ~ TitleCase selectedText -> chunk = toLowerCase selectedText)
    /\ @toggleCase Ascii7.unicode (mkDocument (js "cat") 0 3) = mkDocument (js "Cat") 0 3
    /\ @toggleCase Ascii7.unicode (mkDocument (js "Cat") 0 3) = mkDocument (js "CAT") 0 3
    /\ @toggleCase Ascii7.unicode (mkDocument (js "CAT") 0 3) = mkDocument (js "cat") 0 3
    /\ @toggleCase Ascii7.unicode (mkDocument (js "cat") 1 1) = mkDocument (js "Cat") 0 3
    /\ @toggleCase Ascii7.unicode (mkDocument (js "A") 0 1) = mkDocument (js "a") 0 1
    /\ @toggleCase Ascii7.unicode (mkDocument (js "cAt") 0 3) = mkDocument (js "cat") 0 3.
Proof.
  intros Hv Er Hne. cbv zeta.
  destruct (targetRange_bounds d targetStart targetEnd Hv Er) as (Bs & Be).
  destruct Hv as (H0 & H1 & H2).
  assert (Hlen : length (substring (text d) targetStart targetEnd)
                 = targetEnd - targetStart) by (apply length_substring; lia).
  destruct (newTextChunk_by_class (substring (text d) targetStart targetEnd))
    as (Cl & Ct & Cu & Cm).
  exists (newTextChunk (substring (text d) targetStart targetEnd)).
  unfold toggleCase. rewrite Er.
  destruct (Z.eqb_spec targetStart targetEnd) as [E|_]; [contradiction|].
  rewrite truthy_length by lia. cbn [negb text selectionStart selectionEnd].
  assert (Lp : length (substring (text d) 0 targetStart) = targetStart)
    by (apply length_substring_prefix; lia).
  split; [reflexivity|]. split; [reflexivity|]. split; [reflexivity|].
  split.
  { pose proof (substring_app_middle (substring (text d) 0 targetStart)
                  (newTextChunk (substring (text d) targetStart targetEnd))
                  (substringFrom (text d) targetEnd)) as M.
    rewrite Lp in M. exact M. }
  split; [exact Cl|]. split; [exact Ct|]. split; [exact Cu|]. split; [exact Cm|].
  repeat split.
Qed.

Lemma toggleCase_by_class_witness :
  exists chunk,
    text (@toggleCase Ascii7.unicode (mkDocument (js "el Cat, si") 4 4))
      = js "el " ++ chunk ++ js ", si"
    /\ chunk = js "CAT".
Proof.
  destruct (@toggleCase_by_class Ascii7.unicode (mkDocument (js "el Cat, si") 4 4) 3 6)
    as (chunk & Ht & _ & _ & _ & _ & Hl & _).
  - vm_compute. repeat split; discriminate.
  - reflexivity.
  - discriminate.
  - exists chunk. split; [exact Ht|]. apply Hl.
    + vm_compute. repeat split; try reflexivity. discriminate.
    + vm_compute. discriminate.
Defined.

(** C5 as first stated, with every title-case selection upper-cased, fails
    on a selection that is title-case and all-lower at once: "1abc" starts
    with a unit that is its own upper case, the rest is lower and the whole
    is not all-upper, so it is title-case, for the specification and for
    [isTitle]; being all-lower as well it is replaced by its title-cased
    form, which is "1abc" again, not "1ABC". *)
Lemma toggleCase_title_and_lower_unchanged :
  @TitleCase Ascii7.unicode (js "1abc")
  /\ @isTitle Ascii7.unicode (js "1abc") = true
  /\ @toggleCase Ascii7.unicode (mkDocument (js "1abc") 0 4)
     = mkDocument (js "1abc") 0 4
  /\ text (@toggleCase Ascii7.unicode (mkDocument (js "1abc") 0 4))
     <> @toUpperCase Ascii7.unicode (js "1abc").
Proof.
  repeat split; try reflexivity; vm_compute; discriminate.
Qed.

(** ** Recognition results and the separator *)

Lemma truthy_false (s : jsstring) : truthy s = false <-> s = [].
Proof. destruct s; simpl; split; congruence. Qed.

(** A batch without a final transcript is skipped. *)
Lemma onresult_skips_empty_transcript `{TextProcessing}
  (language : Language) (event : SpeechRecognitionEvent) (d : Document) :
  finalTranscriptChunk event = [] -> onresult language event d = d.
Proof. intros E. unfold onresult. now rewrite E. Qed.

Lemma separator_cases (currentText processedChunk : jsstring) :
  separator currentText processedChunk = [SPACE]
  \/ separator currentText processedChunk = [].
Proof.
  unfold separator.
  destruct ((0 <? length currentText) && negb (endsWithWhiteSpace currentText));
    [destruct (negb (startsWithNoSpacePunct (trim processedChunk)))|]; auto.
Qed.

(** The examples of the specification for the normalizer. *)
Example normalize_examples :
  @normalize Ascii7.unicode (js "hola") [] ES = js "Hola"
  /\ @normalize Ascii7.unicode (js "mundo") (js "Hola.") ES = js "Mundo"
  /\ @normalize Ascii7.unicode (js "mundo") (js "Hola") ES = js "mundo".
Proof. repeat split. Qed.

(** C4.  For a batch with a final transcript, what [onresult] inserts at the
    cursor is the separator followed by the trimmed processed chunk; the
    separator is one space exactly when the document text is not empty, does
    not end in whitespace, and the chunk does not begin with one of
    [. , ; : ! ?], and is empty otherwise.  With the caret at the end of
    "Hola", the chunk "mundo" gives "Hola mundo" and the chunk "." gives
    "Hola.". *)
Theorem onresult_separator `{TextProcessing}
  (language : Language) (event : SpeechRecognitionEvent) (d : Document) :
  truthy (finalTranscriptChunk event) = true ->
  let processedChunk :=
    processTextChunk (finalTranscriptChunk event) (text d) language in
  let chunk := trim processedChunk in
  let sep := separator (text d) processedChunk in
  onresult language event d = insertTextAtCursor (sep ++ chunk) d
  /\ (sep = [SPACE] <->
      text d <> [] /\ endsWithWhiteSpace (text d) = false
      /\ startsWithNoSpacePunct chunk = false)
  /\ (sep = [SPACE] \/ sep = [])
  /\ (forall raw, truthy raw = true ->
      processTextChunk raw (js "Hola") language = js "mundo" ->
      onresult language (mkResultEvent 0 [mkResult true raw]) (mkDocument (js "Hola") 4 4)
      = mkDocument (js "Hola mundo") 10 10)
  /\ (forall raw, truthy raw = true ->
      processTextChunk raw (js "Hola") language = js "." ->
      onresult language (mkResultEvent 0 [mkResult true raw]) (mkDocument (js "Hola") 4 4)
      = mkDocument (js "Hola.") 5 5).
Proof.
  intros Ht. cbv zeta. split; [|split; [|split; [|split]]].
  - unfold onresult. now rewrite Ht.
  - unfold separator.
    destruct (text d) as [|c r] eqn:Et.
    + simpl. split; [discriminate|]. intros (F & _). congruence.
    + assert (L : (0 <? length (c :: r)) = true).
      { apply Z.ltb_lt. unfold length. simpl List.length. lia. }
      rewrite L.
      destruct (endsWithWhiteSpace (c :: r)); simpl.
      * split; [discriminate|]. intros (_ & F & _). discriminate F.
      * destruct (startsWithNoSpacePunct _); simpl.
        -- split; [discriminate|]. intros (_ & _ & F). discriminate F.
        -- split; [|reflexivity]. intros _. repeat split. discriminate.
  - apply separator_cases.
  - intros raw Hr E. unfold onresult, finalTranscriptChunk. simpl.
    rewrite app_nil_r, Hr. simpl text. rewrite E. reflexivity.
  - intros raw Hr E. unfold onresult, finalTranscriptChunk. simpl.
    rewrite app_nil_r, Hr. simpl text. rewrite E. reflexivity.
Qed.

Lemma onresult_separator_witness :
  @onresult (@specTextProcessing Ascii7.unicode) ES
    (mkResultEvent 0 [mkResult true (js " mun"); mkResult false (js "x");
                      mkResult true (js "do ")])
    (mkDocument (js "Hola") 4 4)
  = mkDocument (js "Hola mundo") 10 10
  /\ @onresult (@specTextProcessing Ascii7.unicode) ES
       (mkResultEvent 0 [mkResult true (js "mundo")]) (mkDocument (js "Hola") 4 4)
     = mkDocument (js "Hola mundo") 10 10
  /\ @onresult (@specTextProcessing Ascii7.unicode) ES
       (mkResultEvent 0 [mkResult true (js ".")]) (mkDocument (js "Hola") 4 4)
     = mkDocument (js "Hola.") 5 5.
Proof.
  destruct (@onresult_separator (@specTextProcessing Ascii7.unicode) ES
              (mkResultEvent 0 [mkResult true (js " mun"); mkResult false (js "x");
                                mkResult true (js "do ")])
              (mkDocument (js "Hola") 4 4) eq_refl)
    as (E & _ & _ & M & P).
  split; [exact E|]. split.
  - apply M; reflexivity.
  - apply P; reflexivity.
Defined.

(** C2, at the input on which the code leaves the claim.  The one final
    fragment is a blank; its clean chunk is empty; yet the batch is not
    skipped: the separator is inserted and the text grows by a space. *)
Theorem onresult_blank_fragment_inserts_separator :
  trim (@processTextChunk (@specTextProcessing Ascii7.unicode)
          (js " ") (js "Hola") ES) = []
  /\ @onresult (@specTextProcessing Ascii7.unicode) ES
       (mkResultEvent 0 [mkResult true (js " ")]) (mkDocument (js "Hola") 4 4)
     = mkDocument (js "Hola ") 5 5.
Proof. split; reflexivity. Qed.

(** The same for any text processing: only the raw transcript is tested
    before the insertion, so a batch whose clean chunk is empty still
    replaces the selection by the separator. *)
Lemma onresult_empty_clean_chunk `{TextProcessing}
  (language : Language) (event : SpeechRecognitionEvent) (d : Document) :
  truthy (finalTranscriptChunk event) = true ->
  trim (processTextChunk (finalTranscriptChunk event) (text d) language) = [] ->
  onresult language event d
  = insertTextAtCursor
      (if (0 <? length (text d)) && negb (endsWithWhiteSpace (text d))
       then [SPACE] else []) d.
Proof.
  intros Ht Ec. unfold onresult, separator. rewrite Ht, Ec. simpl.
  now rewrite app_nil_r.
Qed.

(** ** Playback progress *)

(** C7.  For a fraction in [0, 1] and a non-negative text length,
    [mapProgress] is [clamp (floor (textLength * fraction)) 0 textLength],
    an index between 0 and [textLength]; it maps (0.5, 10) to 5, (1, 10) to
    10 and (0, 0) to 0.  No division takes part in it. *)
Theorem mapProgress_clamp `{Float64} (percentage : Q) (textLength : Z) :
  (0 <= percentage)%Q -> (percentage <= 1)%Q -> 0 <= textLength ->
  mapProgress percentage textLength
    = clamp (Qfloor (roundDouble (inject_Z textLength * percentage))) 0 textLength
  /\ 0 <= mapProgress percentage textLength <= textLength
  /\ mapProgress (1 # 2) 10 = 5
  /\ mapProgress 1 10 = 10
  /\ mapProgress 0 0 = 0.
Proof.
  intros Hp0 Hp1 Hl.
  assert (Hf : 0 <= Qfloor (roundDouble (inject_Z textLength * percentage))).
  { change 0 with (Qfloor 0). apply Qfloor_resp_le. apply roundDouble_nonneg.
    apply Qmult_le_0_compat; [|exact Hp0].
    change 0%Q with (inject_Z 0). now rewrite <- Zle_Qle. }
  assert (Ex : forall q z, (q == inject_Z z)%Q -> Z.abs z <= 2 ^ 53 ->
                           Qfloor (roundDouble q) = z).
  { intros q z Eq Hz. rewrite (Qfloor_comp _ _ (roundDouble_integer q z Eq Hz)).
    apply Qfloor_Z. }
  unfold mapProgress, clamp. repeat split; try lia.
  - rewrite (Ex _ 5); [reflexivity|reflexivity|vm_compute; discriminate].
  - rewrite (Ex _ 10); [reflexivity|reflexivity|vm_compute; discriminate].
  - rewrite (Ex _ 0); [reflexivity|reflexivity|vm_compute; discriminate].
Qed.

Lemma mapProgress_clamp_witness :
  @mapProgress exactFloat64 (3 # 4) 10 = clamp 7 0 10.
Proof.
  apply (@mapProgress_clamp exactFloat64 (3 # 4) 10).
  - vm_compute. discriminate.
  - vm_compute. discriminate.
  - lia.
Defined.

Lemma trim_truthy_length (s : jsstring) : truthy (trim s) = true -> 0 < length s.
Proof. destruct s; [discriminate|]. intros _. unfold length. simpl. lia. Qed.

(** ** The listening session *)

(** Goals about fields of a state built by the setters. *)
Ltac session :=
  simpl; repeat split; simpl; intros; try assumption; try congruence;
  try (apply negb_false_iff; assumption); auto.

(** A dispatch [Hs : ... = Some s'] whose handler branches: every branch in
    turn. *)
Ltac split_handler Hs :=
  repeat match type of Hs with
         | context [match ?x with _ => _ end] => destruct x eqn:?
         end;
  try discriminate Hs; injection Hs as <-; session.

Section Session.
Context `{Unicode} `{TextProcessing} `{Float64}.

Lemma handleStopAudio_session (s : App) :
  isListening (handleStopAudio s) = isListening s
  /\ shouldListenRef (handleStopAudio s) = shouldListenRef s
  /\ recognitionRef (handleStopAudio s) = recognitionRef s
  /\ engineCalls (handleStopAudio s) = engineCalls s
  /\ audioState (handleStopAudio s) = Idle.
Proof. unfold handleStopAudio. destruct (stopAudioRef s); simpl; auto. Qed.

(** What a dispatch leaves alone when it is not a tap on the microphone and
    the intent is off: the intent stays off, the engine is not called, and a
    stopped session stays stopped. *)
Lemma step_without_intent (e : Event) (s s' : App) :
  isToggle e = false -> shouldListenRef s = false -> step e s = Some s' ->
  shouldListenRef s' = false
  /\ engineCalls s' = engineCalls s
  /\ (isListening s = false -> isListening s' = false).
Proof.
  intros Ht Hi Hs.
  destruct e; simpl in Ht; try discriminate Ht; simpl in Hs;
    unfold onerror, onend, handleKeyboardPress, onChange, handleClear,
      handlePlay, handleStopAudio, statusOf in Hs;
    rewrite ?Hi in Hs; split_handler Hs.
Qed.

Lemma run_without_intent (es : list Event) (s s' : App) :
  forallb (fun e => negb (isToggle e)) es = true ->
  shouldListenRef s = false -> isListening s = false ->
  run es s = Some s' ->
  shouldListenRef s' = false /\ engineCalls s' = engineCalls s
  /\ isListening s' = false.
Proof.
  revert s. induction es as [|e r IH]; intros s Hn Hi Hl Hr; simpl in *.
  - injection Hr as <-. auto.
  - apply andb_prop in Hn as (He & Hn).
    destruct (step e s) as [s1|] eqn:Es; [|discriminate Hr].
    destruct (step_without_intent e s s1) as (I1 & C1 & L1); trivial.
    + now destruct (isToggle e).
    + destruct (IH s1 Hn I1 (L1 Hl) Hr) as (I2 & C2 & L2).
      repeat split; congruence.
Qed.

Lemma onends_app (os os' : list Outcome) (s : App) :
  onends (os ++ os') s = onends os' (onends os s).
Proof. unfold onends. apply fold_left_app. Qed.

(** A run of [end] events whose restarts all succeed. *)
Lemma onends_all_return (os : list Outcome) (s : App) :
  Forall (eq Returns) os -> shouldListenRef s = true ->
  engineCalls (onends os s) = engineCalls s ++ repeat EngineStart (List.length os)
  /\ isListening (onends os s) = isListening s
  /\ shouldListenRef (onends os s) = true.
Proof.
  intros Hos. revert s. induction Hos as [|o os <- _ IH]; intros s Hi.
  - simpl. now rewrite app_nil_r.
  - change (onends (Returns :: os) s) with (onends os (onend Returns s)).
    assert (E : onend Returns s = callEngine EngineStart s)
      by (unfold onend; now rewrite Hi).
    rewrite E. destruct (IH (callEngine EngineStart s) Hi) as (C & L & I).
    rewrite C, L, I. simpl. now rewrite <- app_assoc.
Qed.

End Session.

(** C1.  In an active session (intent on, listening): every [end] event of a
    run whose restarts succeed makes exactly one call of [start()], and the
    session stays active with the intent on.  When the restart after such a
    run throws, that [end] has made its one call, the intent is cleared and
    the session is stopped, and whatever is dispatched next other than a tap
    on the microphone calls the engine no more.  An [end] event that finds
    the intent off stops the session and calls nothing. *)
Theorem onend_restart_policy `{Unicode} `{TextProcessing} `{Float64}
  (s : App) (os : list Outcome) :
  shouldListenRef s = true -> isListening s = true ->
  Forall (eq Returns) os ->
  let s1 := onends os s in
  let s2 := onend Throws s1 in
  (engineCalls s1 = engineCalls s ++ repeat EngineStart (List.length os)
   /\ isListening s1 = true /\ shouldListenRef s1 = true)
  /\ (engineCalls s2 = engineCalls s1 ++ [EngineStart]
      /\ shouldListenRef s2 = false /\ isListening s2 = false)
  /\ (forall es s3,
        forallb (fun e => negb (isToggle e)) es = true ->
        run es s2 = Some s3 ->
        engineCalls s3 = engineCalls s2
        /\ shouldListenRef s3 = false /\ isListening s3 = false)
  /\ (forall t o,
        shouldListenRef t = false ->
        isListening (onend o t) = false
        /\ engineCalls (onend o t) = engineCalls t
        /\ shouldListenRef (onend o t) = false).
Proof.
  intros Hi Hl Hos. cbv zeta.
  destruct (onends_all_return os s Hos Hi) as (C1 & L1 & I1).
  assert (P2 : engineCalls (onend Throws (onends os s))
               = engineCalls (onends os s) ++ [EngineStart]
               /\ shouldListenRef (onend Throws (onends os s)) = false
               /\ isListening (onend Throws (onends os s)) = false).
  { unfold onend. rewrite I1. simpl. auto. }
  split; [|split; [exact P2|split]].
  - rewrite C1, L1, I1, Hl. auto.
  - intros es s3 Hn Hr. destruct P2 as (_ & I2 & L2).
    destruct (run_without_intent es _ s3 Hn I2 L2 Hr) as (I3 & C3 & L3). auto.
  - intros t o Ht. unfold onend. rewrite Ht. simpl. auto.
Qed.

Lemma onend_restart_policy_witness :
  engineCalls
    (onends [Returns; Returns; Returns]
       (toggleListening Returns (initialApp ES)))
  = [EngineStart; EngineStart; EngineStart; EngineStart]
  /\ isListening
       (onends [Returns; Returns; Returns]
          (toggleListening Returns (initialApp ES))) = true.
Proof.
  destruct (@onend_restart_policy Ascii7.unicode
              (@specTextProcessing Ascii7.unicode) exactFloat64
              (toggleListening Returns (initialApp ES))
              [Returns; Returns; Returns])
    as ((C & L & _) & _).
  - reflexivity.
  - reflexivity.
  - repeat constructor.
  - split; [exact C|exact L].
Defined.

(** C8.  On an error of the denial class ([not-allowed],
    [service-not-allowed]) the handler itself clears the intent and stops
    the session, so that the [end] event that follows restarts nothing; on
    every other error the handler changes nothing at all. *)
Theorem onerror_denial_stops (s : App) (error : string) :
  (error = "not-allowed"%string \/ error = "service-not-allowed"%string ->
   shouldListenRef (onerror error s) = false
   /\ isListening (onerror error s) = false
   /\ engineCalls (onerror error s) = engineCalls s
   /\ forall o, engineCalls (onend o (onerror error s)) = engineCalls s)
  /\ (error <> "not-allowed"%string -> error <> "service-not-allowed"%string ->
      onerror error s = s).
Proof.
  unfold onerror. split.
  - intros [-> | ->]; simpl; repeat split.
  - intros N1 N2.
    destruct (String.eqb_spec error "not-allowed"); [contradiction|].
    destruct (String.eqb_spec error "service-not-allowed"); [contradiction|].
    reflexivity.
Qed.

Lemma onerror_denial_stops_witness :
  isListening (onerror "not-allowed" (toggleListening Returns (initialApp ES))) = false
  /\ onerror "no-speech" (toggleListening Returns (initialApp ES))
     = toggleListening Returns (initialApp ES).
Proof.
  split.
  - apply (proj1 (onerror_denial_stops
                    (toggleListening Returns (initialApp ES)) "not-allowed")).
    left. reflexivity.
  - apply (proj2 (onerror_denial_stops
                    (toggleListening Returns (initialApp ES)) "no-speech"));
      discriminate.
Defined.

(** ** Listening against playback *)

Section Exclusion.
Context `{Unicode} `{TextProcessing} `{Float64}.

Lemma step_sessionInvariant (e : Event) (s s' : App) :
  sessionInvariant s -> step e s = Some s' -> sessionInvariant s'.
Proof.
  intros (Il & Ir) Hs. unfold sessionInvariant.
  destruct e; simpl in Hs;
    unfold toggleListening, onerror, onend, handleKeyboardPress, onChange,
      handleClear, handlePlay, toggleListening, handleStopAudio, statusOf in Hs;
    split_handler Hs.
Qed.

Lemma run_sessionInvariant (es : list Event) (s s' : App) :
  sessionInvariant s -> run es s = Some s' -> sessionInvariant s'.
Proof.
  revert s. induction es as [|e r IH]; intros s Hi Hr; simpl in Hr.
  - now injection Hr as <-.
  - destruct (step e s) as [s1|] eqn:Es; [|discriminate Hr].
    exact (IH s1 (step_sessionInvariant e s s1 Hi Es) Hr).
Qed.

(** X15.  In every state reached from the mounted component, whatever was
    dispatched, the listening flag equals the intent and there is an intent
    only with an engine. *)
Lemma reachable_sessionInvariant (lang : Language) (es : list Event) (s : App) :
  run es (initialApp lang) = Some s -> sessionInvariant s.
Proof.
  apply run_sessionInvariant. split; [reflexivity|discriminate].
Qed.

(** X18.  Starting playback stops listening. *)
Lemma handlePlay_stops_listening (s : App) :
  sessionInvariant s -> truthy (trim (text (doc s))) = true ->
  isListening (handlePlay s) = false
  /\ shouldListenRef (handlePlay s) = false
  /\ audioState (handlePlay s) = Loading.
Proof.
  intros (Il & Ir) Ht. unfold handlePlay, toggleListening. rewrite Ht. simpl.
  destruct (shouldListenRef s) eqn:Hi.
  - rewrite (Ir eq_refl). session.
  - session.
Qed.

(** X19.  Starting to listen leaves the audio state idle, and cancels the
    utterance whose stop function is stored. *)
Lemma toggleListening_start_stops_audio (o : Outcome) (s : App) :
  recognitionRef s = true -> shouldListenRef s = false ->
  audioState (toggleListening o s) = Idle
  /\ (forall id u, notIdle s = true -> stopAudioRef s = Some id ->
        nth_error (utterances s) id = Some u ->
        statusOf id (toggleListening o s) = Some Cancelled).
Proof.
  intros Hr Hi. unfold toggleListening, handleStopAudio, statusOf, notIdle.
  rewrite Hr, Hi. simpl. split.
  - destruct (audioState s) eqn:Ea, (stopAudioRef s), o; session.
  - intros id u Hn Hs Hu. rewrite Hs.
    assert (E : nth_error (setStatus id Cancelled (utterances s)) id
                = Some (mkUtterance (utteranceLength u) Cancelled)).
    { clear - Hu. revert id Hu.
      induction (utterances s) as [|x r IH]; intros [|id] Hu; simpl in *;
        try discriminate Hu.
      - now injection Hu as ->.
      - now apply IH. }
    destruct (audioState s); [discriminate Hn| |]; destruct o; simpl;
      now rewrite E.
Qed.

(** A key of the virtual keyboard and an edit of the text field leave the
    audio state idle. *)
Lemma edits_stop_audio (s : App) :
  (forall key type, audioState (handleKeyboardPress key type s) = Idle)
  /\ (forall d, audioState (onChange d s) = Idle).
Proof.
  unfold handleKeyboardPress, onChange, handleStopAudio, notIdle. split; intros;
    destruct (audioState s) eqn:Ea, (stopAudioRef s); session.
Qed.

(** Every utterance that [handlePlay] requests has a positive [textLength],
    the divisor of the scroll ratio in the progress callback. *)
Lemma handlePlay_textLength_positive (s : App) :
  utterances (handlePlay s) = utterances s
  \/ exists n, 0 < n
       /\ utterances (handlePlay s) = utterances s ++ [mkUtterance n Requested].
Proof.
  unfold handlePlay, toggleListening.
  destruct (truthy (trim (text (doc s)))) eqn:Ht; simpl; [|now left].
  right. exists (length (text (doc s))). split; [now apply trim_truthy_length|].
  destruct (shouldListenRef s), (recognitionRef s); reflexivity.
Qed.

End Exclusion.

(** C9, at the trace on which the code leaves the claim.  The text is
    "hola"; playback is requested; while the request is pending the
    microphone is tapped, and [handleStopAudio] finds no stop function to
    call; the request resolves and reports progress.  The session is then
    listening and the audio state is playing. *)
Theorem listening_while_playing_reachable :
  exists s,
    @run Ascii7.unicode (@specTextProcessing Ascii7.unicode) exactFloat64
      [TextEdit (mkDocument (js "hola") 4 4); Play; Toggle Returns;
       SpeakResolved 0; Progress 0 (1 # 2)]
      (initialApp ES) = Some s
    /\ isListening s = true /\ shouldListenRef s = true
    /\ audioState s = Playing.
Proof. eexists. repeat split. Qed.

(** * Further properties of the editor *)

(** ** Deletion *)

Lemma skipn_cons_exists (s : jsstring) (n : nat) :
  (n < List.length s)%nat -> exists c, skipn n s = c :: skipn (S n) s.
Proof.
  revert s. induction n as [|n IH]; intros [|x r] Hn; simpl in Hn; try lia.
  - exists x. reflexivity.
  - destruct (IH r) as [c E]; [lia|]. exists c. exact E.
Qed.

(** Cutting a text at [b] and at [e]: the units in between. *)
Lemma substring_three (s : jsstring) (b e : Z) :
  0 <= b <= e -> e <= length s ->
  s = substring s 0 b ++ substring s b e ++ substringFrom s e.
Proof.
  intros Hb He.
  rewrite substring_prefix, substringFrom_skipn by lia.
  unfold substring. rewrite (clampIndex_id s b), (clampIndex_id s e) by lia.
  replace (Z.min b e) with b by lia. replace (Z.max b e - b) with (e - b) by lia.
  rewrite <- (firstn_skipn (Z.to_nat b) s) at 1. f_equal.
  rewrite <- (firstn_skipn (Z.to_nat (e - b)) (skipn (Z.to_nat b) s)) at 1.
  f_equal. rewrite skipn_skipn. f_equal. lia.
Qed.

(** Every deletion has the same shape: the text up to the new caret, then
    the text from the end of the selection. *)
Lemma deleteAtCursor_shape (mode : DeleteMode) (d : Document) :
  validDocument d ->
  exists b,
    deleteAtCursor mode d
    = mkDocument (substring (text d) 0 b ++ substringFrom (text d) (selectionEnd d)) b b
    /\ 0 <= b <= selectionStart d
    /\ (selectionStart d = selectionEnd d -> 0 < selectionStart d ->
        b < selectionStart d)
    /\ (selectionStart d < selectionEnd d \/ selectionStart d = 0 ->
        b = selectionStart d).
Proof.
  intros (H0 & H1 & H2). unfold deleteAtCursor.
  destruct (Z.eqb_spec (selectionStart d) (selectionEnd d)) as [Hc|Hc]; simpl.
  - destruct (Z.eqb_spec (selectionStart d) 0) as [Hz|Hz].
    + exists 0. rewrite substring_0_0, <- Hc, Hz. simpl.
      rewrite substringFrom_skipn by (pose proof (length_nonneg (text d)); lia).
      simpl. destruct d as [t a b]; simpl in *. subst. repeat split; lia.
    + destruct mode.
      * exists (selectionStart d - 1). repeat split; try lia.
      * pose proof (wordTargetIndex_bounds (text d) (selectionStart d)
                      ltac:(lia)) as B.
        exists (wordTargetIndex (text d) (selectionStart d)).
        unfold wordDeleteCount.
        destruct (Z.eqb_spec
                    (selectionStart d - wordTargetIndex (text d) (selectionStart d)) 0);
          [lia|]. simpl.
        replace (selectionStart d
                 - (selectionStart d - wordTargetIndex (text d) (selectionStart d)))
          with (wordTargetIndex (text d) (selectionStart d)) by lia.
        repeat split; lia.
  - exists (selectionStart d). repeat split; lia.
Qed.

(** X1.  Backspace with a collapsed caret at [p > 0] removes exactly the unit at
    [p - 1]: the text was [before ++ c :: after] and becomes
    [before ++ after], with the caret at [p - 1]. *)
Theorem deleteAtCursor_char_removes_one (d : Document) :
  validDocument d -> selectionStart d = selectionEnd d -> 0 < selectionStart d ->
  let p := selectionStart d in
  let before := substring (text d) 0 (p - 1) in
  let after := substringFrom (text d) p in
  (exists c, text d = before ++ c :: after)
  /\ deleteAtCursor CHAR d = mkDocument (before ++ after) (p - 1) (p - 1)
  /\ length (text (deleteAtCursor CHAR d)) = length (text d) - 1.
Proof.
  intros (H0 & H1 & H2) Hc Hp. cbv zeta.
  assert (Ed : deleteAtCursor CHAR d
               = mkDocument (substring (text d) 0 (selectionStart d - 1)
                             ++ substringFrom (text d) (selectionStart d))
                            (selectionStart d - 1) (selectionStart d - 1)).
  { unfold deleteAtCursor. rewrite <- Hc, Z.eqb_refl. simpl.
    destruct (Z.eqb_spec (selectionStart d) 0); [lia|reflexivity]. }
  split; [|split; [exact Ed|]].
  - rewrite substring_prefix, substringFrom_skipn by lia.
    destruct (skipn_cons_exists (text d) (Z.to_nat (selectionStart d - 1)))
      as [c E]; [unfold length in H2; lia|].
    exists c.
    replace (Z.to_nat (selectionStart d)) with (S (Z.to_nat (selectionStart d - 1)))
      by lia.
    rewrite <- E. symmetry. apply firstn_skipn.
  - rewrite Ed. simpl. rewrite length_app, length_substring_prefix,
      length_substringFrom by lia. lia.
Qed.

Lemma deleteAtCursor_char_removes_one_witness :
  deleteAtCursor CHAR (mkDocument (js "hola") 2 2) = mkDocument (js "hla") 1 1.
Proof.
  apply (deleteAtCursor_char_removes_one (mkDocument (js "hola") 2 2)).
  - vm_compute. repeat split; discriminate.
  - reflexivity.
  - reflexivity.
Defined.

(** X2.  Over a selection that is not collapsed the mode does not matter: both
    keys delete the selection, which is also what inserting the empty string
    does. *)
Theorem deleteAtCursor_selection (mode : DeleteMode) (d : Document) :
  validDocument d -> selectionStart d < selectionEnd d ->
  deleteAtCursor mode d = insertTextAtCursor [] d
  /\ length (text (deleteAtCursor mode d))
     = length (text d) - (selectionEnd d - selectionStart d)
  /\ selectionStart (deleteAtCursor mode d) = selectionStart d
  /\ selectionEnd (deleteAtCursor mode d) = selectionStart d.
Proof.
  intros (H0 & H1 & H2) Hs.
  assert (E : deleteAtCursor mode d = insertTextAtCursor [] d).
  { unfold deleteAtCursor, insertTextAtCursor.
    destruct (Z.eqb_spec (selectionStart d) (selectionEnd d)); [lia|]. simpl.
    unfold length. simpl. now rewrite Z.add_0_r. }
  rewrite E. unfold insertTextAtCursor.
  cbn [text selectionStart selectionEnd app]. change (length []) with 0.
  rewrite length_app, length_substring_prefix, length_substringFrom by lia.
  repeat split; lia.
Qed.

Lemma deleteAtCursor_selection_witness :
  deleteAtCursor WORD (mkDocument (js "uno dos tres") 2 9)
  = insertTextAtCursor [] (mkDocument (js "uno dos tres") 2 9).
Proof.
  apply (deleteAtCursor_selection WORD (mkDocument (js "uno dos tres") 2 9)).
  - vm_compute. repeat split; discriminate.
  - reflexivity.
Defined.

(** X3.  A deletion keeps the document valid with a collapsed caret, never moves
    the caret to the right, and touches nothing outside the deleted range:
    the text before the new caret and the text after the old selection are
    as they were. *)
Theorem deleteAtCursor_valid (mode : DeleteMode) (d : Document) :
  validDocument d ->
  let d' := deleteAtCursor mode d in
  validDocument d'
  /\ selectionEnd d' = selectionStart d'
  /\ selectionStart d' <= selectionStart d
  /\ substring (text d') 0 (selectionStart d') = substring (text d) 0 (selectionStart d')
  /\ substringFrom (text d') (selectionStart d') = substringFrom (text d) (selectionEnd d)
  /\ length (text d')
     = length (text d) - (selectionEnd d - selectionStart d')%Z.
Proof.
  intros Hv. cbv zeta.
  destruct (deleteAtCursor_shape mode d Hv) as (b & E & Hb & _ & _).
  destruct Hv as (H0 & H1 & H2). rewrite E. simpl.
  assert (Lp : length (substring (text d) 0 b) = b)
    by (apply length_substring_prefix; lia).
  assert (Lq : length (substringFrom (text d) (selectionEnd d))
               = length (text d) - selectionEnd d)
    by (apply length_substringFrom; lia).
  split; [|split; [reflexivity|split; [lia|split; [|split]]]].
  - unfold validDocument. simpl. rewrite length_app. lia.
  - pose proof (substring_app_prefix (substring (text d) 0 b)
                  (substringFrom (text d) (selectionEnd d))) as M.
    rewrite Lp in M. exact M.
  - pose proof (substringFrom_app (substring (text d) 0 b)
                  (substringFrom (text d) (selectionEnd d))) as M.
    rewrite Lp in M. exact M.
  - rewrite length_app. lia.
Qed.

Lemma deleteAtCursor_valid_witness :
  validDocument (deleteAtCursor WORD (mkDocument (js "uno dos tres") 7 7)).
Proof.
  apply (deleteAtCursor_valid WORD (mkDocument (js "uno dos tres") 7 7)).
  vm_compute. repeat split; discriminate.
Defined.

(** X4.  A deletion changes nothing exactly when the caret is collapsed at 0;
    in every other case the text gets strictly shorter. *)
Theorem deleteAtCursor_noop_iff (mode : DeleteMode) (d : Document) :
  validDocument d ->
  (deleteAtCursor mode d = d
   <-> selectionStart d = 0 /\ selectionEnd d = 0)
  /\ (~ (selectionStart d = 0 /\ selectionEnd d = 0) ->
      length (text (deleteAtCursor mode d)) < length (text d)).
Proof.
  intros Hv.
  destruct (deleteAtCursor_shape mode d Hv) as (b & E & Hb & Hlt & Heq).
  destruct Hv as (H0 & H1 & H2).
  assert (Hshort : ~ (selectionStart d = 0 /\ selectionEnd d = 0) ->
                   length (text (deleteAtCursor mode d)) < length (text d)).
  { intros Hn. rewrite E. simpl.
    rewrite length_app, length_substring_prefix, length_substringFrom by lia.
    destruct (Z.eq_dec (selectionStart d) (selectionEnd d)) as [Hc|Hc].
    - assert (0 < selectionStart d) by lia. specialize (Hlt Hc H). lia.
    - lia. }
  split; [split|exact Hshort].
  - intros Ed.
    destruct (Z.eq_dec (selectionStart d) 0) as [Hs|Hs];
      destruct (Z.eq_dec (selectionEnd d) 0) as [He|He]; try (split; assumption);
      exfalso; assert (Hn : ~ (selectionStart d = 0 /\ selectionEnd d = 0)) by lia;
      specialize (Hshort Hn); rewrite Ed in Hshort; lia.
  - intros (Hs & He). unfold deleteAtCursor. rewrite Hs, He. reflexivity.
Qed.

Lemma deleteAtCursor_noop_iff_witness :
  length (text (deleteAtCursor CHAR (mkDocument (js "ab") 1 2))) < length (js "ab").
Proof.
  apply (deleteAtCursor_noop_iff CHAR (mkDocument (js "ab") 1 2)).
  - vm_compute. repeat split; discriminate.
  - intros (F & _). discriminate F.
Defined.

(** ** Insertion *)

Lemma insertTextAtCursor_validDocument (s : jsstring) (d : Document) :
  validDocument d -> validDocument (insertTextAtCursor s d).
Proof.
  intros (H0 & H1 & H2). unfold validDocument, insertTextAtCursor. simpl.
  rewrite !length_app, length_substring_prefix, length_substringFrom by lia.
  pose proof (length_nonneg s). lia.
Qed.











(** Without the frame in between it is otherwise: when the host leaves the
    caret at the end of the text it renders, the second insertion reads it
    there and appends. *)
Example insertCall_same_frame :
  runFrames (insertCall (js "y") (12, 12)
               (insertCall (js "x") (11, 11)
                  (mkTextarea (mkDocument (js "Hola mundo") 4 4) [])))
  = mkTextarea (mkDocument (js "Holax mundoy") 12 12) [].
Proof. reflexivity. Qed.

(** X7.  When the text overflows the view, an insertion scrolls to the bottom
    exactly when at most five units follow the selection; otherwise it only
    refocuses. *)
Theorem insertScrollEffect_bottom (s : jsstring) (d : Document) :
  validDocument d ->
  (insertScrollEffect true s d = ScrollToBottom
   <-> length (text d) - selectionEnd d <= 5)
  /\ (insertScrollEffect true s d = BlurThenFocus
      <-> 5 < length (text d) - selectionEnd d).
Proof.
  intros (H0 & H1 & H2). unfold insertScrollEffect, insertTextAtCursor.
  cbn [text selectionStart selectionEnd].
  rewrite !length_app, length_substring_prefix, length_substringFrom by lia.
  destruct (Z.leb_spec
              (selectionStart d + (length s + (length (text d) - selectionEnd d)) - 5)
              (selectionStart d + length s));
    split; split; intros; try discriminate; try reflexivity; lia.
Qed.

Lemma insertScrollEffect_bottom_witness :
  insertScrollEffect true (js "x") (mkDocument (js "uno dos tres") 3 3) = BlurThenFocus.
Proof.
  apply (insertScrollEffect_bottom (js "x") (mkDocument (js "uno dos tres") 3 3)).
  - vm_compute. repeat split; discriminate.
  - reflexivity.
Defined.

(** ** More on case toggling *)

Lemma firstn_S_nth (s : jsstring) (m : nat) (c : N) :
  nth_error s m = Some c -> firstn (S m) s = firstn m s ++ [c].
Proof.
  revert s. induction m as [|m IH]; intros [|x r] E; simpl in E; try discriminate E.
  - now injection E as ->.
  - change (firstn (S (S m)) (x :: r)) with (x :: firstn (S m) r).
    now rewrite (IH r E).
Qed.

Section WordRange.
Context `{Unicode}.

(** The left scan stops just after a boundary, or at 0. *)
Lemma scanLeft_spec (s : jsstring) (n : nat) :
  (n <= List.length s)%nat ->
  exists pre w,
    firstn n s = pre ++ w
    /\ List.length pre = scanLeft s n
    /\ forallb notBoundary w = true
    /\ (pre = [] \/ exists pre' c, pre = pre' ++ [c] /\ isBoundary c = true).
Proof.
  induction n as [|m IH]; intros Hn.
  - exists [], []. simpl. auto.
  - destruct (nth_error s m) as [c|] eqn:E;
      [|apply nth_error_None in E; lia].
    simpl scanLeft. rewrite E, (firstn_S_nth s m c E).
    destruct (isBoundary c) eqn:B.
    + exists (firstn m s ++ [c]), []. rewrite app_nil_r.
      repeat split.
      * rewrite List.length_app, List.length_firstn. simpl. lia.
      * right. exists (firstn m s), c. auto.
    + destruct IH as (pre & w & E1 & E2 & E3 & E4); [lia|].
      exists pre, (w ++ [c]). rewrite E1, <- app_assoc.
      repeat split; trivial.
      rewrite forallb_app, E3. unfold notBoundary. simpl. now rewrite B.
Qed.

(** The right scan stops at a boundary, or at the end. *)
Lemma scanRightFrom_spec (rest : jsstring) (e : Z) :
  exists w tail,
    rest = w ++ tail
    /\ scanRightFrom rest e = e + length w
    /\ forallb notBoundary w = true
    /\ (tail = [] \/ exists c t, tail = c :: t /\ isBoundary c = true).
Proof.
  revert e. induction rest as [|c r IH]; intros e.
  - exists [], []. unfold length. simpl. repeat split; auto. lia.
  - simpl. destruct (isBoundary c) eqn:B.
    + exists [], (c :: r). unfold length. simpl. repeat split; [lia|].
      right. exists c, r. auto.
    + destruct (IH (e + 1)) as (w & tail & E1 & E2 & E3 & E4).
      exists (c :: w), tail. rewrite E2, E1. unfold length, notBoundary. simpl.
      rewrite B. simpl. repeat split; trivial. lia.
Qed.

(** What [toggleCase] does, once the target range is known. *)
Lemma toggleCase_shape (d : Document) (ts te : Z) :
  validDocument d -> targetRange d = (ts, te) ->
  (ts = te /\ toggleCase d = d)
  \/ (ts < te
      /\ toggleCase d
         = mkDocument
             (substring (text d) 0 ts
              ++ newTextChunk (substring (text d) ts te)
              ++ substringFrom (text d) te)
             ts (ts + length (newTextChunk (substring (text d) ts te)))).
Proof.
  intros Hv Er.
  destruct (targetRange_bounds d ts te Hv Er) as (Bs & Be).
  destruct Hv as (H0 & H1 & H2).
  unfold toggleCase. rewrite Er.
  destruct (Z.eqb_spec ts te) as [E|E]; [left; auto|right].
  split; [lia|].
  rewrite truthy_length; [reflexivity|].
  rewrite length_substring by lia. lia.
Qed.

(** X8.  With a collapsed caret the target range is the word around the caret:
    the text splits into what is before the range, the word and what is
    after it; the word has no whitespace and no punctuation; and it cannot
    be grown, a boundary or an end of the text being on each side. *)
Theorem targetRange_word (d : Document) (ts te : Z) :
  validDocument d -> selectionStart d = selectionEnd d ->
  targetRange d = (ts, te) ->
  ts <= selectionStart d <= te
  /\ exists before word after,
       text d = before ++ word ++ after
       /\ length before = ts
       /\ length before + length word = te
       /\ forallb notBoundary word = true
       /\ (before = [] \/ exists b c, before = b ++ [c] /\ isBoundary c = true)
       /\ (after = [] \/ exists c a, after = c :: a /\ isBoundary c = true).
Proof.
  intros Hv Hc Er.
  destruct (targetRange_bounds d ts te Hv Er) as (Bs & Be).
  destruct Hv as (H0 & H1 & H2). split; [lia|].
  unfold targetRange in Er. rewrite <- Hc, Z.eqb_refl in Er.
  injection Er as Es Ee.
  destruct (scanLeft_spec (text d) (Z.to_nat (selectionStart d)))
    as (pre & wl & E1 & E2 & E3 & E4); [unfold length in H2; lia|].
  destruct (scanRightFrom_spec (skipn (Z.to_nat (selectionStart d)) (text d))
              (Z.max (selectionStart d) 0))
    as (wr & tail & F1 & F2 & F3 & F4).
  assert (Lf : List.length (pre ++ wl) = Z.to_nat (selectionStart d)).
  { rewrite <- E1, List.length_firstn. unfold length in H2. lia. }
  rewrite List.length_app in Lf.
  exists pre, (wl ++ wr), tail. repeat split; trivial.
  - rewrite <- (firstn_skipn (Z.to_nat (selectionStart d)) (text d)) at 1.
    now rewrite E1, F1, <- !app_assoc.
  - rewrite <- Es. unfold length.
    destruct (Z.ltb_spec 0 (selectionStart d)); lia.
  - rewrite <- Ee, F2. unfold length. rewrite List.length_app. lia.
  - now rewrite forallb_app, E3, F3.
Qed.

(** X9.  With the caret between two boundaries (an end of the text counting as
    one, so in an empty text too) [toggleCase] finds no word and changes
    nothing. *)
Theorem toggleCase_between_boundaries (d : Document) (before after : jsstring) :
  text d = before ++ after ->
  selectionStart d = length before -> selectionEnd d = length before ->
  (before = [] \/ exists b c, before = b ++ [c] /\ isBoundary c = true) ->
  (after = [] \/ exists c a, after = c :: a /\ isBoundary c = true) ->
  toggleCase d = d.
Proof.
  intros Et Hs He Hb Ha.
  assert (Er : targetRange d = (length before, length before)).
  { unfold targetRange. rewrite Hs, He, Z.eqb_refl, Et. f_equal.
    - destruct Hb as [->|(b & c & -> & B)]; [reflexivity|].
      assert (L : (0 <? length (b ++ [c])) = true).
      { apply Z.ltb_lt. unfold length. rewrite List.length_app. simpl. lia. }
      rewrite L. unfold length. rewrite Nat2Z.id, List.length_app.
      simpl List.length. rewrite Nat.add_1_r. simpl scanLeft.
      rewrite <- app_assoc, nth_error_app2, Nat.sub_diag by lia. simpl.
      now rewrite B.
    - unfold length. rewrite Nat2Z.id, skipn_app, skipn_all, Nat.sub_diag.
      simpl. replace (Z.max (Z.of_nat (List.length before)) 0)
        with (Z.of_nat (List.length before)) by lia.
      destruct Ha as [->|(c & a & -> & B)]; simpl; [reflexivity|now rewrite B]. }
  unfold toggleCase. now rewrite Er, Z.eqb_refl.
Qed.

(** X10.  [toggleCase] keeps the document valid and touches only the target
    range: what is before it and what is after it stay. *)
Theorem toggleCase_valid (d : Document) (ts te : Z) :
  validDocument d -> targetRange d = (ts, te) ->
  validDocument (toggleCase d)
  /\ exists chunk,
       text (toggleCase d)
       = substring (text d) 0 ts ++ chunk ++ substringFrom (text d) te
       /\ text d
          = substring (text d) 0 ts ++ substring (text d) ts te
              ++ substringFrom (text d) te.
Proof.
  intros Hv Er.
  destruct (targetRange_bounds d ts te Hv Er) as (Bs & Be).
  pose proof Hv as (H0 & H1 & H2).
  pose proof (substring_three (text d) ts te ltac:(lia) ltac:(lia)) as T.
  destruct (toggleCase_shape d ts te Hv Er) as [(E & ->)|(Hlt & ->)].
  - split; [exact Hv|]. exists (substring (text d) ts te). split; exact T.
  - split.
    + unfold validDocument. simpl.
      rewrite !length_app, length_substring_prefix, length_substringFrom by lia.
      pose proof (length_nonneg (newTextChunk (substring (text d) ts te))). lia.
    + exists (newTextChunk (substring (text d) ts te)). split; [reflexivity|exact T].
Qed.

End WordRange.

Lemma targetRange_word_witness :
  exists before word after,
    js "el cat, si" = before ++ word ++ after
    /\ length before = 3 /\ length before + length word = 6.
Proof.
  destruct (@targetRange_word Ascii7.unicode (mkDocument (js "el cat, si") 5 5) 3 6)
    as (_ & before & word & after & E & Lb & Lw & _).
  - vm_compute. repeat split; discriminate.
  - reflexivity.
  - reflexivity.
  - exists before, word, after. auto.
Defined.

Lemma toggleCase_between_boundaries_witness :
  @toggleCase Ascii7.unicode (mkDocument (js "uno, dos") 4 4)
  = mkDocument (js "uno, dos") 4 4.
Proof.
  apply (@toggleCase_between_boundaries Ascii7.unicode
           (mkDocument (js "uno, dos") 4 4) (js "uno,") (js " dos")).
  - reflexivity.
  - reflexivity.
  - reflexivity.
  - right. exists (js "uno"), 44%N. split; reflexivity.
  - right. exists 32%N, (js "dos"). split; reflexivity.
Defined.

Lemma toggleCase_valid_witness :
  validDocument (@toggleCase Ascii7.unicode (mkDocument (js "el cat, si") 5 5)).
Proof.
  apply (@toggleCase_valid Ascii7.unicode (mkDocument (js "el cat, si") 5 5) 3 6).
  - vm_compute. repeat split; discriminate.
  - reflexivity.
Defined.

(** On ASCII text the two conversions differ by case only. *)
Lemma lowerUnit_upperUnit (c : N) :
  Ascii7.lowerUnit (Ascii7.upperUnit c) = Ascii7.lowerUnit c.
Proof.
  unfold Ascii7.upperUnit.
  destruct (N.leb_spec 97 c), (N.leb_spec c 122); cbn [andb];
  unfold Ascii7.lowerUnit;
  repeat match goal with
         | |- context [N.leb ?a ?b] => destruct (N.leb_spec a b); cbn [andb]
         end; lia.
Qed.

Lemma lowerUnit_lowerUnit (c : N) :
  Ascii7.lowerUnit (Ascii7.lowerUnit c) = Ascii7.lowerUnit c.
Proof.
  unfold Ascii7.lowerUnit at 2.
  destruct (N.leb_spec 65 c), (N.leb_spec c 90); cbn [andb];
  unfold Ascii7.lowerUnit;
  repeat match goal with
         | |- context [N.leb ?a ?b] => destruct (N.leb_spec a b); cbn [andb]
         end; lia.
Qed.

Lemma newTextChunk_ascii (sel : jsstring) :
  map Ascii7.lowerUnit (@newTextChunk Ascii7.unicode sel) = map Ascii7.lowerUnit sel.
Proof.
  unfold newTextChunk, titleCased.
  destruct (@isLower Ascii7.unicode sel); [|destruct (@isTitle Ascii7.unicode sel)];
    cbn [toUpperCase toLowerCase Ascii7.unicode].
  - destruct sel as [|c r]; [reflexivity|]. simpl.
    rewrite lowerUnit_upperUnit, map_map. f_equal.
    apply map_ext. intros a. apply lowerUnit_lowerUnit.
  - rewrite map_map. apply map_ext. intros a. apply lowerUnit_upperUnit.
  - rewrite map_map. apply map_ext. intros a. apply lowerUnit_lowerUnit.
Qed.

(** X11.  On a text of ASCII units, where [Ascii7.unicode] is the tables
    of the host, [toggleCase] changes the case of units and nothing else: the
    text before and after are equal up to case, unit by unit, and have the
    same length. *)
Theorem toggleCase_ascii_case_only (d : Document) :
  validDocument d -> asciiText (text d) ->
  map Ascii7.lowerUnit (text (@toggleCase Ascii7.unicode d))
  = map Ascii7.lowerUnit (text d)
  /\ length (text (@toggleCase Ascii7.unicode d)) = length (text d).
Proof.
  intros Hv _.
  assert (E : map Ascii7.lowerUnit (text (@toggleCase Ascii7.unicode d))
              = map Ascii7.lowerUnit (text d)).
  { destruct (@targetRange Ascii7.unicode d) as [ts te] eqn:Er.
    destruct (@targetRange_bounds Ascii7.unicode d ts te Hv Er) as (Bs & Be).
    destruct (@toggleCase_shape Ascii7.unicode d ts te Hv Er) as [(_ & ->)|(Hlt & ->)];
      [reflexivity|].
    destruct Hv as (H0 & H1 & H2).
    cbn [text]. rewrite !map_app, newTextChunk_ascii, <- !map_app.
    f_equal. symmetry. apply substring_three; lia. }
  split; [exact E|].
  apply (f_equal (@List.length N)) in E. rewrite !List.length_map in E.
  unfold length. now rewrite E.
Qed.

Lemma toggleCase_ascii_case_only_witness :
  length (text (@toggleCase Ascii7.unicode (mkDocument (js "el cat, si") 5 5)))
  = length (js "el cat, si").
Proof.
  apply (toggleCase_ascii_case_only (mkDocument (js "el cat, si") 5 5)).
  - vm_compute. repeat split; discriminate.
  - repeat (constructor; [reflexivity|]). constructor.
Defined.

(** ** Blank texts and dictation at the end of the text *)

Lemma trimStart_all_whitespace (s : jsstring) :
  trimStart s = [] <-> forallb isWhiteSpace s = true.
Proof.
  induction s as [|c r IH]; simpl; [tauto|].
  destruct (isWhiteSpace c); simpl; [exact IH|].
  split; discriminate.
Qed.

Lemma trimEnd_head (c : N) (r : jsstring) :
  isWhiteSpace c = false -> trimEnd (c :: r) <> [].
Proof.
  intros W. simpl. destruct (trimEnd r); [rewrite W|]; discriminate.
Qed.

(** [trim] gives the empty string on blank strings and only on them. *)
Lemma trim_nil_iff (s : jsstring) :
  trim s = [] <-> forallb isWhiteSpace s = true.
Proof.
  unfold trim. rewrite <- trimStart_all_whitespace. split.
  - intros E. destruct (trimStart s) as [|c r] eqn:T; [reflexivity|].
    exfalso. revert E. apply trimEnd_head.
    clear - T. induction s as [|x s IH]; simpl in T; [discriminate T|].
    destruct (isWhiteSpace x) eqn:W; [now apply IH|]. now injection T as <- _.
  - intros ->. reflexivity.
Qed.

Lemma endsWithWhiteSpace_app (a b : jsstring) :
  b <> [] -> endsWithWhiteSpace (a ++ b) = endsWithWhiteSpace b.
Proof.
  intros Hb. unfold endsWithWhiteSpace. rewrite rev_app_distr.
  destruct (rev b) as [|c t] eqn:R; [|reflexivity].
  apply (f_equal (@rev N)) in R. rewrite rev_involutive in R. contradiction.
Qed.

(** X12.  Dictation with the caret at the end of the text appends: the text
    becomes the old text, the separator and the clean chunk; the caret stays
    at the end; and when the clean chunk is not empty the new text does not
    end in whitespace, so the next batch is separated in its turn. *)
Theorem onresult_appends_at_end `{TextProcessing}
  (language : Language) (event : SpeechRecognitionEvent) (d : Document) :
  selectionStart d = length (text d) -> selectionEnd d = length (text d) ->
  truthy (finalTranscriptChunk event) = true ->
  let processedChunk :=
    processTextChunk (finalTranscriptChunk event) (text d) language in
  let d' := onresult language event d in
  text d' = text d ++ separator (text d) processedChunk ++ trim processedChunk
  /\ selectionStart d' = length (text d')
  /\ selectionEnd d' = length (text d')
  /\ (trim processedChunk <> [] -> endsWithWhiteSpace (text d') = false).
Proof.
  intros Hs He Ht. cbv zeta. unfold onresult. rewrite Ht.
  unfold insertTextAtCursor. cbn [text selectionStart selectionEnd].
  pose proof (length_nonneg (text d)) as Hl.
  rewrite Hs, He, substring_prefix, substringFrom_skipn by lia.
  replace (Z.to_nat (length (text d))) with (List.length (text d))
    by (unfold length; lia).
  rewrite firstn_all, skipn_all, app_nil_r.
  repeat split.
  - rewrite !length_app. lia.
  - rewrite !length_app. lia.
  - intros Hc. rewrite app_assoc, endsWithWhiteSpace_app by exact Hc.
    apply trimEnd_not_endsWithWhiteSpace.
Qed.

Lemma onresult_appends_at_end_witness :
  text (@onresult (@specTextProcessing Ascii7.unicode) ES
          (mkResultEvent 0 [mkResult true (js " que tal ")])
          (mkDocument (js "Hola.") 5 5))
  = js "Hola. Que tal".
Proof.
  apply (@onresult_appends_at_end (@specTextProcessing Ascii7.unicode) ES
           (mkResultEvent 0 [mkResult true (js " que tal ")])
           (mkDocument (js "Hola.") 5 5)); reflexivity.
Defined.

(** X13.  [handlePlay] on a blank text (empty, or whitespace only) does nothing at
    all; on any other text it requests one utterance with the length of the
    text and shows the loading state. *)
Theorem handlePlay_blank (s : App) :
  (forallb isWhiteSpace (text (doc s)) = true -> handlePlay s = s)
  /\ (forallb isWhiteSpace (text (doc s)) = false ->
      audioState (handlePlay s) = Loading
      /\ utterances (handlePlay s)
         = utterances s ++ [mkUtterance (length (text (doc s))) Requested]).
Proof.
  unfold handlePlay, toggleListening. split; intros Hb.
  - apply trim_nil_iff in Hb. now rewrite Hb.
  - destruct (trim (text (doc s))) as [|c r] eqn:T.
    + apply trim_nil_iff in T. congruence.
    + simpl. destruct (shouldListenRef s), (recognitionRef s); split; reflexivity.
Qed.

Lemma handlePlay_blank_witness :
  handlePlay (onChange (mkDocument (js "  ") 2 2) (initialApp ES))
  = onChange (mkDocument (js "  ") 2 2) (initialApp ES).
Proof.
  apply (proj1 (handlePlay_blank (onChange (mkDocument (js "  ") 2 2) (initialApp ES)))).
  reflexivity.
Defined.

(** * Further properties of the component *)

Lemma deleteAtCursor_validDocument (mode : DeleteMode) (d : Document) :
  validDocument d -> validDocument (deleteAtCursor mode d).
Proof.
  intros Hv. destruct (deleteAtCursor_shape mode d Hv) as (b & E & Hb & _).
  destruct Hv as (H0 & H1 & H2). rewrite E. unfold validDocument. simpl.
  rewrite length_app, length_substring_prefix, length_substringFrom by lia. lia.
Qed.

Lemma toggleCase_validDocument `{Unicode} (d : Document) :
  validDocument d -> validDocument (toggleCase d).
Proof.
  intros Hv. destruct (targetRange d) as [ts te] eqn:Er.
  destruct (targetRange_bounds d ts te Hv Er) as (Bs & Be).
  destruct (toggleCase_shape d ts te Hv Er) as [(_ & ->)|(Hlt & ->)]; [exact Hv|].
  destruct Hv as (H0 & H1 & H2). unfold validDocument. simpl.
  rewrite !length_app, length_substring_prefix, length_substringFrom by lia.
  pose proof (length_nonneg (newTextChunk (substring (text d) ts te))). lia.
Qed.

Lemma onresult_validDocument `{TextProcessing}
  (language : Language) (event : SpeechRecognitionEvent) (d : Document) :
  validDocument d -> validDocument (onresult language event d).
Proof.
  intros Hv. unfold onresult.
  destruct (truthy (finalTranscriptChunk event)); [|exact Hv].
  now apply insertTextAtCursor_validDocument.
Qed.

Lemma clampIndex_validDocument (t : jsstring) (i : Z) :
  validDocument (mkDocument t (clampIndex t i) (clampIndex t i)).
Proof.
  unfold validDocument, clampIndex. simpl. pose proof (length_nonneg t). lia.
Qed.

Lemma setStatus_lengths (id : nat) (st : UtteranceStatus) (us : list Utterance) :
  map utteranceLength (setStatus id st us) = map utteranceLength us.
Proof.
  revert id. induction us as [|u r IH]; intros [|id]; simpl; trivial.
  now rewrite IH.
Qed.

Lemma filter_length_snoc (f : EngineCall -> bool) (l : list EngineCall) (c : EngineCall) :
  List.length (filter f (l ++ [c]))
  = (List.length (filter f l) + (if f c then 1 else 0))%nat.
Proof.
  rewrite filter_app, List.length_app. simpl. now destruct (f c).
Qed.

(** The fields of a state after the setters. *)
Ltac fields :=
  cbn [doc language isListening audioState recognitionRef shouldListenRef
       stopAudioRef engineCalls utterances withDoc setIsListening setAudioState
       setShouldListen setStopAudioRef callEngine withUtterances] in *.

(** Every branch of the handler dispatched in [Hs], then [tac]. *)
Ltac each_branch Hs tac :=
  unfold toggleListening, onerror, onend, handleKeyboardPress, onChange,
    handleClear, handleStopAudio, handlePlayResumed, onProgress, onComplete,
    statusOf in Hs;
  repeat match type of Hs with
         | context [match ?x with _ => _ end] => destruct x eqn:?
         end;
  try discriminate Hs; injection Hs as <-; fields; tac.

Section Reachable.
Context `{Unicode} `{TextProcessing} `{Float64}.

Lemma handlePlay_doc (s : App) : doc (handlePlay s) = doc s.
Proof.
  unfold handlePlay, toggleListening.
  destruct (negb (truthy (trim (text (doc s))))), (shouldListenRef s),
    (negb (recognitionRef s)); reflexivity.
Qed.

Lemma step_validDocument (e : Event) (s s' : App) :
  validEvent e -> validDocument (doc s) -> step e s = Some s' ->
  validDocument (doc s').
Proof.
  intros He Hv Hs.
  destruct e; simpl in Hs, He;
    try (injection Hs as <-; rewrite handlePlay_doc; exact Hv);
    each_branch Hs
      ltac:(auto using insertTextAtCursor_validDocument,
              deleteAtCursor_validDocument, toggleCase_validDocument,
              onresult_validDocument, clampIndex_validDocument).
  all: vm_compute; repeat split; discriminate.
Qed.

(** X14.  The document stays valid: whatever is dispatched, with the text field
    handing over values with their selection inside them, the selection of
    the document lies within its text, in order. *)
Theorem run_validDocument (es : list Event) (s s' : App) :
  Forall validEvent es -> validDocument (doc s) -> run es s = Some s' ->
  validDocument (doc s').
Proof.
  intros Hes. revert s. induction Hes as [|e r He _ IH]; intros s Hv Hr;
    simpl in Hr.
  - now injection Hr as <-.
  - destruct (step e s) as [s1|] eqn:Es; [|discriminate Hr].
    exact (IH s1 (step_validDocument e s s1 He Hv Es) Hr).
Qed.

Lemma step_engineBalance (e : Event) (s s' : App) :
  engineBalance s -> step e s = Some s' -> engineBalance s'.
Proof.
  unfold engineBalance, startCalls, stopCalls. intros Hb Hs.
  destruct (shouldListenRef s) eqn:Ei;
    destruct e; simpl in Hs; unfold handlePlay in Hs;
      each_branch Hs
        ltac:(rewrite ?filter_length_snoc;
              repeat match goal with
                     | E : shouldListenRef _ = _ |- _ => rewrite E
                     end;
              simpl; try lia; try congruence).
Qed.

(** X16.  The engine is never stopped more often than it was started, and while
    there is an intent to listen it has been started once more than it was
    stopped, at least. *)
Theorem run_engineBalance (es : list Event) (s s' : App) :
  engineBalance s -> run es s = Some s' -> engineBalance s'.
Proof.
  revert s. induction es as [|e r IH]; intros s Hb Hr; simpl in Hr.
  - now injection Hr as <-.
  - destruct (step e s) as [s1|] eqn:Es; [|discriminate Hr].
    exact (IH s1 (step_engineBalance e s s1 Hb Es) Hr).
Qed.

Lemma step_utterancesPositive (e : Event) (s s' : App) :
  utterancesPositive s -> step e s = Some s' -> utterancesPositive s'.
Proof.
  unfold utterancesPositive. intros Hp Hs.
  destruct e; simpl in Hs;
    try (injection Hs as <-;
         destruct (handlePlay_textLength_positive s) as [->|(n & Hn & ->)];
         [exact Hp|rewrite map_app; apply Forall_app; split; [exact Hp|]];
         repeat constructor; exact Hn);
    each_branch Hs ltac:(rewrite ?setStatus_lengths; try exact Hp).
Qed.

Lemma run_utterancesPositive (es : list Event) (s s' : App) :
  utterancesPositive s -> run es s = Some s' -> utterancesPositive s'.
Proof.
  revert s. induction es as [|e r IH]; intros s Hb Hr; simpl in Hr.
  - now injection Hr as <-.
  - destruct (step e s) as [s1|] eqn:Es; [|discriminate Hr].
    exact (IH s1 (step_utterancesPositive e s s1 Hb Es) Hr).
Qed.

(** X17.  Whatever was dispatched since mounting, the [textLength] held by the
    progress callback of any utterance is positive: the scroll ratio
    [cursorPosition / textLength] is never a division by zero. *)
Theorem reachable_textLength_positive (lang : Language) (es : list Event)
  (s : App) (id : nat) (u : Utterance) :
  run es (initialApp lang) = Some s ->
  nth_error (utterances s) id = Some u ->
  0 < utteranceLength u.
Proof.
  intros Hr Hu.
  assert (P : utterancesPositive s)
    by (apply (run_utterancesPositive es (initialApp lang)); [constructor|exact Hr]).
  unfold utterancesPositive in P. rewrite Forall_forall in P. apply P.
  apply in_map. eapply nth_error_In. exact Hu.
Qed.

End Reachable.

Lemma run_validDocument_witness :
  exists s,
    @run Ascii7.unicode (@specTextProcessing Ascii7.unicode) exactFloat64
      [TextEdit (mkDocument (js "hola mundo") 10 10); KeyPress [] DELETE_WORD;
       KeyPress [] TOGGLE_CASE; KeyPress (js "x") KEY_CHAR]
      (initialApp ES) = Some s
    /\ validDocument (doc s).
Proof.
  eexists. split; [reflexivity|].
  apply (@run_validDocument Ascii7.unicode (@specTextProcessing Ascii7.unicode)
           exactFloat64
           [TextEdit (mkDocument (js "hola mundo") 10 10); KeyPress [] DELETE_WORD;
            KeyPress [] TOGGLE_CASE; KeyPress (js "x") KEY_CHAR]
           (initialApp ES)).
  - constructor; [vm_compute; repeat split; discriminate|].
    repeat (constructor; [exact I|]). constructor.
  - vm_compute. repeat split; discriminate.
  - reflexivity.
Defined.

Lemma run_engineBalance_witness :
  exists s,
    @run Ascii7.unicode (@specTextProcessing Ascii7.unicode) exactFloat64
      [Toggle Returns; EngineEnd Returns; EngineError "not-allowed";
       Toggle Throws; Toggle Returns; Toggle Returns]
      (initialApp ES) = Some s
    /\ engineBalance s.
Proof.
  eexists. split; [reflexivity|].
  apply (@run_engineBalance Ascii7.unicode (@specTextProcessing Ascii7.unicode)
           exactFloat64
           [Toggle Returns; EngineEnd Returns; EngineError "not-allowed";
            Toggle Throws; Toggle Returns; Toggle Returns]
           (initialApp ES)).
  - vm_compute. constructor.
  - reflexivity.
Defined.

Lemma reachable_textLength_positive_witness :
  0 < utteranceLength (mkUtterance 4 Requested).
Proof.
  apply (@reachable_textLength_positive Ascii7.unicode
           (@specTextProcessing Ascii7.unicode) exactFloat64 ES
           [TextEdit (mkDocument (js "hola") 4 4); Play]
           (handlePlay (onChange (mkDocument (js "hola") 4 4) (initialApp ES)))
           0%nat (mkUtterance 4 Requested)); reflexivity.
Defined.

Lemma reachable_sessionInvariant_witness :
  sessionInvariant
    (onend Throws (toggleListening Returns (initialApp ES))).
Proof.
  apply (@reachable_sessionInvariant Ascii7.unicode
           (@specTextProcessing Ascii7.unicode) exactFloat64 ES
           [Toggle Returns; EngineEnd Throws]).
  reflexivity.
Defined.

Lemma handlePlay_stops_listening_witness :
  isListening
    (handlePlay (toggleListening Returns
                   (onChange (mkDocument (js "hola") 4 4) (initialApp ES))))
  = false.
Proof.
  apply (handlePlay_stops_listening
           (toggleListening Returns
              (onChange (mkDocument (js "hola") 4 4) (initialApp ES)))).
  - split; [reflexivity|intros _; reflexivity].
  - reflexivity.
Defined.

Lemma toggleListening_start_stops_audio_witness :
  audioState
    (toggleListening Returns
       (handlePlayResumed 0
          (handlePlay (onChange (mkDocument (js "hola") 4 4) (initialApp ES)))))
  = Idle.
Proof.
  apply (toggleListening_start_stops_audio Returns
           (handlePlayResumed 0
              (handlePlay (onChange (mkDocument (js "hola") 4 4) (initialApp ES)))));
    reflexivity.
Defined.

(** ** The session across the other dispatches *)

(** X20.  When the user stops listening the intent is cleared before the engine is
    stopped, so the [end] event that the stop provokes restarts nothing: it
    leaves the state as it is. *)
Theorem end_after_user_stop (o o' : Outcome) (s : App) :
  recognitionRef s = true -> shouldListenRef s = true ->
  let s1 := toggleListening o s in
  engineCalls s1 = engineCalls s ++ [EngineStop]
  /\ isListening s1 = false
  /\ shouldListenRef s1 = false
  /\ onend o' s1 = s1.
Proof.
  intros Hr Hi. cbv zeta. unfold toggleListening, onend. rewrite Hr, Hi.
  simpl. repeat split.
Qed.

Lemma end_after_user_stop_witness :
  onend Returns (toggleListening Returns (toggleListening Returns (initialApp ES)))
  = toggleListening Returns (toggleListening Returns (initialApp ES)).
Proof.
  apply (end_after_user_stop Returns Returns (toggleListening Returns (initialApp ES)));
    reflexivity.
Defined.

Section Neutral.
Context `{Unicode} `{TextProcessing} `{Float64}.

Lemma step_sessionNeutral (e : Event) (s s' : App) :
  sessionNeutral e = true -> step e s = Some s' ->
  isListening s' = isListening s
  /\ shouldListenRef s' = shouldListenRef s
  /\ engineCalls s' = engineCalls s.
Proof.
  intros Hn Hs.
  destruct e; simpl in Hn; try discriminate Hn; simpl in Hs;
    each_branch Hs ltac:(repeat split).
Qed.

(** X21.  Dictation goes on across everything that is not about the session:
    results, keys of the virtual keyboard, edits of the text field, clearing
    and the playback callbacks change neither the listening flag nor the
    intent and never call the engine. *)
Theorem run_sessionNeutral (es : list Event) (s s' : App) :
  forallb sessionNeutral es = true -> run es s = Some s' ->
  isListening s' = isListening s
  /\ shouldListenRef s' = shouldListenRef s
  /\ engineCalls s' = engineCalls s.
Proof.
  revert s. induction es as [|e r IH]; intros s Hn Hr; simpl in *.
  - injection Hr as <-. auto.
  - apply andb_prop in Hn as (He & Hn).
    destruct (step e s) as [s1|] eqn:Es; [|discriminate Hr].
    destruct (step_sessionNeutral e s s1 He Es) as (A & B & C).
    destruct (IH s1 Hn Hr) as (A' & B' & C').
    repeat split; congruence.
Qed.

End Neutral.

Lemma run_sessionNeutral_witness :
  exists s,
    @run Ascii7.unicode (@specTextProcessing Ascii7.unicode) exactFloat64
      [EngineResult (mkResultEvent 0 [mkResult true (js "hola")]);
       KeyPress (js "!") KEY_CHAR; KeyPress [] BACKSPACE; Clear]
      (toggleListening Returns (initialApp ES)) = Some s
    /\ isListening s = true.
Proof.
  eexists. split; [reflexivity|].
  apply (@run_sessionNeutral Ascii7.unicode (@specTextProcessing Ascii7.unicode)
           exactFloat64
           [EngineResult (mkResultEvent 0 [mkResult true (js "hola")]);
            KeyPress (js "!") KEY_CHAR; KeyPress [] BACKSPACE; Clear]
           (toggleListening Returns (initialApp ES))); reflexivity.
Defined.

(** ** More on playback progress *)

(** X22.  The caret of the read-along never moves backwards as the reported
    fraction grows, the rounding of doubles being monotone. *)
Theorem mapProgress_monotone `{Float64} (p q : Q) (textLength : Z) :
  (forall a b, (a <= b)%Q -> (roundDouble a <= roundDouble b)%Q) ->
  0 <= textLength -> (p <= q)%Q ->
  mapProgress p textLength <= mapProgress q textLength.
Proof.
  intros Hm Hl Hpq. unfold mapProgress.
  assert (Hf : Qfloor (roundDouble (inject_Z textLength * p))
               <= Qfloor (roundDouble (inject_Z textLength * q))).
  { apply Qfloor_resp_le, Hm.
    rewrite (Qmult_comm _ p), (Qmult_comm _ q).
    apply Qmult_le_compat_r; [exact Hpq|].
    change 0%Q with (inject_Z 0). now rewrite <- Zle_Qle. }
  lia.
Qed.

Lemma mapProgress_monotone_witness :
  @mapProgress exactFloat64 (1 # 3) 10 <= @mapProgress exactFloat64 (2 # 3) 10.
Proof.
  apply (@mapProgress_monotone exactFloat64 (1 # 3) (2 # 3) 10).
  - intros a b Hab. exact Hab.
  - lia.
  - vm_compute. discriminate.
Defined.

(** X23.  At the fraction 0 the caret is at the start of the text and at the
    fraction 1 it is at its end, for every text whose length is a double. *)
Theorem mapProgress_endpoints `{Float64} (textLength : Z) :
  0 <= textLength <= 2 ^ 53 ->
  mapProgress 0 textLength = 0 /\ mapProgress 1 textLength = textLength.
Proof.
  intros Hl. unfold mapProgress.
  assert (E0 : Qfloor (roundDouble (inject_Z textLength * 0)) = 0).
  { rewrite (Qfloor_comp _ _ (roundDouble_integer _ 0 (Qmult_0_r _) ltac:(simpl; lia))).
    reflexivity. }
  assert (E1 : Qfloor (roundDouble (inject_Z textLength * 1)) = textLength).
  { rewrite (Qfloor_comp _ _ (roundDouble_integer _ textLength (Qmult_1_r _)
                                ltac:(lia))).
    apply Qfloor_Z. }
  rewrite E0, E1. lia.
Qed.

Lemma mapProgress_endpoints_witness :
  @mapProgress exactFloat64 1 2048 = 2048.
Proof.
  apply (@mapProgress_endpoints exactFloat64 2048). split; [lia|].
  vm_compute. discriminate.
Defined.
